(** * rakkess: access matrix printing

    A shallow embedding of the table printer of rakkess and of the code that
    turns a [ResourceAccess] into a printer table, with the properties of the
    rendering pipeline proved about the embedding.

    Sources embedded here:
    - package [printer] (the file holding [Outcome], [Env], [Table],
      [Table.Render], [colored], [Bold]): module [printer] below;
    - [internal/client/result/resource.go], method [ResourceAccess.Table]:
      module [result];
    - the revision of [ResourceAccess.Table] that cuts the names with
      [strings.Cut] and builds cells with [printer.TextList] and
      [printer.BoldText]: module [result_cut].

    Go strings are byte strings: they are modelled by [string], whose
    characters are the 256 bytes of [ascii]. *)

From Stdlib Require Import String Ascii List ZArith NArith Bool Lia.
From Stdlib Require Import DecimalString.
From stdpp Require Import gmap strings list sorting.

Local Open Scope string_scope.
Set Warnings "-clear-no-such-hyp".

(** ** Panics

    A Go function that may [panic] returns a [result]: the value, or the
    argument of the panic. *)

Inductive result (A : Type) : Type :=
| Ok (a : A)
| Panic (msg : string).
Arguments Ok {A} a.
Arguments Panic {A} msg.

#[global] Instance result_bind : MBind result := fun A B k r =>
  match r with
  | Ok a => k a
  | Panic msg => Panic msg
  end.

(** [for i, x := range l { s = body i x s }], started at index [i], where the
    body may panic. *)
Fixpoint range_from {A S : Type} (body : nat -> A -> S -> result S)
    (i : nat) (l : list A) (s : S) : result S :=
  match l with
  | [] => Ok s
  | x :: l' => s' ← body i x s; range_from body (Datatypes.S i) l' s'
  end.

Definition range {A S : Type} (body : nat -> A -> S -> result S)
    (l : list A) (s : S) : result S :=
  range_from body 0 l s.

(** ** Bytes of the string literals *)

Definition byte (n : nat) : string := String (ascii_of_nat n) "".

(** ["\xff"], the escape marker of the tabwriter, and ["\033"], ESC. *)
Definition xff : string := byte 255.
Definition ESC : ascii := ascii_of_nat 27.
Definition esc : string := String ESC "".
Definition tab : string := byte 9.
Definition newline : string := byte 10.

(** The check mark U+2714 and the cross U+2716, in UTF-8. *)
Definition check_mark : string := byte 226 +:+ byte 156 +:+ byte 148.
Definition cross_mark : string := byte 226 +:+ byte 156 +:+ byte 150.

(** [fmt]'s verb [%d] on an [int]. *)
Definition fmt_d (n : Z) : string := NilZero.string_of_int (Z.to_int n).

(** Whether the byte ESC occurs in a string. *)
Fixpoint has_escape (s : string) : bool :=
  match s with
  | EmptyString => false
  | String c s' => Ascii.eqb c ESC || has_escape s'
  end.

Module printer.

(** [type color int] and its constants. *)
Definition color := Z.
Definition red : color := 31%Z.
Definition green : color := 32%Z.
Definition purple : color := 35%Z.
Definition none : color := 0%Z.

(** [type Outcome uint8]: a natural number; the code does no arithmetic on
    outcomes, so the bound 256 plays no role. The constants are [iota] from
    0; [None_] is Go's [None]. *)
Definition Outcome := N.
Definition None_ : Outcome := 0%N.
Definition Up : Outcome := 1%N.
Definition Down : Outcome := 2%N.
Definition Err : Outcome := 3%N.

(** The four declared constants. *)
Definition declared (o : Outcome) : Prop :=
  o = None_ \/ o = Up \/ o = Down \/ o = Err.

Record Env := { IsTerminal : bool; OutputFormat : string }.

Definition humanreadableAccessCode (o : Outcome) : result string :=
  if N.eqb o None_ then Ok ""
  else if N.eqb o Up then Ok check_mark
  else if N.eqb o Down then Ok cross_mark
  else if N.eqb o Err then Ok "ERR"
  else Panic "unknown access code".

(** The colour [colored] picks: its [switch] has no [default]. *)
Definition color_of (o : Outcome) : color :=
  let c := none in
  if N.eqb o Up then green
  else if N.eqb o Down then red
  else if N.eqb o Err then purple
  else c.

(** [fmt.Sprintf("\xff\033[%dm\xff%s\xff\033[0m\xff", c, s)] *)
Definition color_frame (c : color) (s : string) : string :=
  xff +:+ esc +:+ "[" +:+ fmt_d c +:+ "m" +:+ xff +:+ s
      +:+ xff +:+ esc +:+ "[0m" +:+ xff.

Definition colored (wrap : Outcome -> result string) : Outcome -> result string :=
  fun o =>
    let c := color_of o in
    s ← wrap o;
    Ok (color_frame c s).

Definition asciiAccessCode (o : Outcome) : result string :=
  if N.eqb o None_ then Ok "n/a"
  else if N.eqb o Up then Ok "yes"
  else if N.eqb o Down then Ok "no"
  else if N.eqb o Err then Ok "ERR"
  else Panic "unknown access code".

(** [func (o Outcome) Render(e Env) string] *)
Definition Outcome_Render (o : Outcome) (e : Env) : result string :=
  let conv := humanreadableAccessCode in
  let conv := if IsTerminal e then colored conv else conv in
  let conv := if String.eqb (OutputFormat e) "ascii-table" then asciiAccessCode else conv in
  conv o.

(** [type Text string] and [type RenderableFunc func(Env) string]. *)
Record Text := mkText { Text_string : string }.
Record RenderableFunc := mkRenderableFunc { call : Env -> result string }.

(** The interface [Renderable]: a value of it is a value of one of the types
    of the package that have the method [Render]. *)
Inductive Renderable : Type :=
| OfOutcome (o : Outcome)
| OfText (t : Text)
| OfFunc (f : RenderableFunc).

(** The types whose values can be asked to render themselves. *)
Class Renders (A : Type) := Render : A -> Env -> result string.

#[global] Instance Text_Render : Renders Text :=
  fun t _ => Ok (Text_string t).

#[global] Instance RenderableFunc_Render : Renders RenderableFunc :=
  fun f e => call f e.

#[global] Instance Renderable_Render : Renders Renderable :=
  fun r e =>
    match r with
    | OfOutcome o => Outcome_Render o e
    | OfText t => Render t e
    | OfFunc f => Render f e
    end.

(** [fmt.Sprintf("\xff\033[1m%s\033[0m\xff", inner)] *)
Definition bold_frame (inner : string) : string :=
  xff +:+ esc +:+ "[1m" +:+ inner +:+ esc +:+ "[0m" +:+ xff.

Definition Bold (r : Renderable) : Renderable :=
  OfFunc (mkRenderableFunc (fun e =>
    inner ← Render r e;
    if negb (IsTerminal e) then Ok inner
    else Ok (bold_frame inner))).

Definition BoldText (str : string) : Renderable := Bold (OfText (mkText str)).

Definition TextList (strs : list string) : list Renderable :=
  fold_left (fun list str => (list ++ [OfText (mkText str)])%list) strs [].

(** Rows and tables. The cells of an intro are [Renderable]s in this package;
    [resource.go] hands [AddRow] a [[]string], so the type of the cells is a
    parameter. *)
Section Tables.
Context {I : Type}.

Record Row := { Intro : list I; Entries : list Outcome }.
Record Table := { Headers : list I; Rows : list Row }.

Definition TableWithHeaders (headers : list I) : Table :=
  {| Headers := headers; Rows := [] |}.

Definition AddRow (p : Table) (intro : list I) (outcomes : list Outcome) : Table :=
  let row := {| Intro := intro; Entries := outcomes |} in
  {| Headers := Headers p; Rows := (Rows p ++ [row])%list |}.

Context `{Renders I}.

(** The header line: the first cell as it is, the others after a tab. *)
Definition Render_headers (env : Env) (hs : list I) (w : string) : result string :=
  range (fun i h w =>
           s ← Render h env;
           if Nat.eqb i 0 then Ok (w +:+ s) else Ok (w +:+ tab +:+ s))
        hs w.

Definition Render_intro (env : Env) (intro : list I) (w : string) : result string :=
  range (fun i e w =>
           let w := if negb (Nat.eqb i 0) then w +:+ tab else w in
           s ← Render e env;
           Ok (w +:+ s))
        intro w.

Definition Render_entries (env : Env) (entries : list Outcome) (w : string) : result string :=
  range (fun _ e w =>
           s ← Outcome_Render e env;
           Ok (w +:+ tab +:+ s))
        entries w.

Definition Render_row (env : Env) (row : Row) (w : string) : result string :=
  w ← Render_intro env (Intro row) w;
  w ← Render_entries env (Entries row) w;
  Ok (w +:+ newline).

(** [func (p *Table) Render(out io.Writer, outputFormat string)]: the bytes
    written to the tabwriter [w]; [out_isTerminal] is [isTerminal(out)]. *)
Definition Table_Render (p : Table) (out_isTerminal : bool) (outputFormat : string)
    : result string :=
  let env := {| IsTerminal := out_isTerminal; OutputFormat := outputFormat |} in
  w ← Render_headers env (Headers p) "";
  let w := w +:+ newline in
  range (fun _ row w => Render_row env row w) (Rows p) w.
End Tables.

Arguments Row : clear implicits.
Arguments Table : clear implicits.

End printer.

(** ** Loops without panics *)

(** [for i, x := range l { s = body i x s }], started at index [i]. *)
Fixpoint for_range_from {A S : Type} (body : nat -> A -> S -> S)
    (i : nat) (l : list A) (s : S) : S :=
  match l with
  | [] => s
  | x :: l' => for_range_from body (Datatypes.S i) l' (body i x s)
  end.

Definition for_range {A S : Type} (body : nat -> A -> S -> S) (l : list A) (s : S) : S :=
  for_range_from body 0 l s.

(** ** Library functions of Go and of apimachinery *)

(** [cmp.Less] on strings: the order of the bytes. *)
Definition cmp_Less (x y : string) : bool := String.ltb x y.

(** [strings.Cut(s, ".")]: the text before the first dot, the text after it,
    and whether there is a dot. *)
Fixpoint Cut_dot (s : string) : string * string * bool :=
  match s with
  | EmptyString => ("", "", false)
  | String c s' =>
      if Ascii.eqb c "."%char then ("", s', true)
      else
        let '(before, after, found) := Cut_dot s' in
        (String c before, after, found)
  end.

(** [sort.Slice(l, less)] as the insertion sort of Go's [sort] package: each
    element in turn moves left over the elements it is less than.
    [sort_Slice_unique] below shows that any other way to sort by [less]
    gives the same slice. *)
Section Sort.
Context {A : Type} (less : A -> A -> bool).

Fixpoint sort_insert (x : A) (l : list A) : list A :=
  match l with
  | [] => [x]
  | y :: l' => if less x y then x :: y :: l' else y :: sort_insert x l'
  end.

Definition sort_Slice (l : list A) : list A :=
  fold_left (fun sorted x => sort_insert x sorted) l [].
End Sort.

Module schema.

(** [schema.GroupResource] of k8s.io/apimachinery, a library outside the
    repository, with [ParseGroupResource] and the method [String] as that
    library documents them: ["resource.group"] is split at its first dot
    (either part may be empty; without a dot the whole string is the
    resource), and a resource of the empty group prints without a dot. *)
Record GroupResource := { Group : string; Resource : string }.

#[global] Instance GroupResource_eq_dec : EqDecision GroupResource.
Proof. solve_decision. Defined.

Definition ParseGroupResource (gr : string) : GroupResource :=
  let '(before, after, found) := Cut_dot gr in
  if found then {| Group := after; Resource := before |}
  else {| Group := ""; Resource := gr |}.

Definition GroupResource_String (gr : GroupResource) : string :=
  if Nat.eqb (String.length (Group gr)) 0 then Resource gr
  else Resource gr +:+ "." +:+ Group gr.

End schema.

Module result.
Import printer schema.

(** Modelled from the spec: the declaration of [Access] and of its constants
    is not among the sources. The spec gives the type four values (allowed,
    denied, not applicable, error); [resource.go] names them [Allowed],
    [Denied], [NotApplicable] and [RequestErr]. Which of them is Go's zero
    value, the value a map yields at a missing key, is not fixed here: it is
    the parameter [Access_zero] of [Table]. *)
Inductive Access := Denied | Allowed | NotApplicable | RequestErr.

#[global] Instance Access_eq_dec : EqDecision Access.
Proof. solve_decision. Defined.

(** [type ResourceAccess map[string]map[string]Access] *)
Abbreviation ResourceAccess := (gmap string (gmap string Access)).

(** The rows of a table are not marked in Go. The model records, next to the
    table, which call of [AddRow] added each row. *)
Inductive RowKind :=
| Spacer
| GroupHeader (group : string)
| Data (gr : GroupResource).

#[global] Instance RowKind_eq_dec : EqDecision RowKind.
Proof. solve_decision. Defined.

Record Build := { p : Table string; kinds : list RowKind; lastGroup : string }.

Definition AddRow_as (k : RowKind) (st : Build) (intro : list string)
    (outcomes : list Outcome) : Build :=
  {| p := AddRow (p st) intro outcomes;
     kinds := (kinds st ++ [k])%list;
     lastGroup := lastGroup st |}.

Definition set_lastGroup (g : string) (st : Build) : Build :=
  {| p := p st; kinds := kinds st; lastGroup := g |}.

(** The comparison handed to [sort.Slice]. *)
Definition less (x y : GroupResource) : bool :=
  if negb (String.eqb (Group x) (Group y)) then cmp_Less (Group x) (Group y)
  else cmp_Less (Resource x) (Resource y).

(** The [switch] on [res[v]]; [o] starts as the zero [Outcome], [None_]. *)
Definition outcome_of (a : Access) : Outcome :=
  let o := None_ in
  match a with
  | Denied => Down
  | Allowed => Up
  | NotApplicable => None_
  | RequestErr => Err
  end.

Section Table.
(** Go's zero value of [Access], and [strings.ToUpper]. *)
Variable Access_zero : Access.
Variable ToUpper : string -> string.

(** [res[v]] on a map that may be nil. *)
Definition index (res : gmap string Access) (v : string) : Access :=
  default Access_zero (res !! v).

(** [ra[name]]: the nil map at a missing key. *)
Definition index_ra (ra : ResourceAccess) (name : string) : gmap string Access :=
  default ∅ (ra !! name).

Definition row_outcomes (res : gmap string Access) (verbs : list string) : list Outcome :=
  fold_left (fun outcomes v => (outcomes ++ [outcome_of (index res v)])%list) verbs [].

Definition upper_verbs (verbs : list string) : list string :=
  fold_left (fun upperVerbs v => (upperVerbs ++ [ToUpper v])%list) verbs [].

(** The body of the loop over [groupResources]. *)
Definition Table_body (ra : ResourceAccess) (verbs upperVerbs : list string)
    (i : nat) (gr : GroupResource) (st : Build) : Build :=
  let st :=
    if negb (String.eqb (Group gr) (lastGroup st)) || Nat.eqb i 0 then
      let st :=
        if negb (Nat.eqb i 0) then AddRow_as Spacer st [" "] [None_] else st in
      let displayGroup := Group gr in
      let displayGroup :=
        if String.eqb displayGroup "" then "core" else displayGroup in
      let st :=
        AddRow_as (GroupHeader (Group gr)) st
                  ((displayGroup +:+ ":") :: upperVerbs) [None_] in
      set_lastGroup (Group gr) st
    else st in
  let res := index_ra ra (GroupResource_String gr) in
  let outcomes := row_outcomes res verbs in
  AddRow_as (Data gr) st [Resource gr] outcomes.

(** [Table] once [range ra] has yielded the names in the order [names]. *)
Definition Table_build (names : list string) (ra : ResourceAccess)
    (verbs : list string) : Build :=
  let groupResources :=
    fold_left (fun grs name => (grs ++ [ParseGroupResource name])%list) names [] in
  let groupResources := sort_Slice less groupResources in
  let upperVerbs := upper_verbs verbs in
  let st := {| p := TableWithHeaders []; kinds := []; lastGroup := "" |} in
  for_range (Table_body ra verbs upperVerbs) groupResources st.

(** The names of a map, in the order in which the model enumerates it. Go
    leaves the order of [range] open; [Table_range_any_order] shows that
    [Table] does not depend on it. *)
Definition names_of (ra : ResourceAccess) : list string := (map_to_list ra).*1.

(** [func (ra ResourceAccess) Table(verbs []string) *printer.Table] *)
Definition Table (ra : ResourceAccess) (verbs : list string) : Table string :=
  p (Table_build (names_of ra) ra verbs).

(** The rows of [Table], each with the call that added it. *)
Definition Table_rows (ra : ResourceAccess) (verbs : list string)
    : list (RowKind * Row string) :=
  let st := Table_build (names_of ra) ra verbs in
  zip (kinds st) (Rows (p st)).

End Table.

End result.

(** The revision of [ResourceAccess.Table] that sorts the names themselves,
    cut at their first dot, and builds the cells with [printer.TextList] and
    [printer.BoldText]; it is the one written against [printer.AddRow] as
    embedded above. *)
Module result_cut.
Import printer result.

Inductive RowKind :=
| Spacer
| GroupHeader (group : string)
| Data (name : string).

#[global] Instance RowKind_eq_dec : EqDecision RowKind.
Proof. solve_decision. Defined.

Record Build := { p : printer.Table Renderable; kinds : list RowKind; lastGroup : string }.

Definition AddRow_as (k : RowKind) (st : Build) (intro : list Renderable)
    (outcomes : list Outcome) : Build :=
  {| p := AddRow (p st) intro outcomes;
     kinds := (kinds st ++ [k])%list;
     lastGroup := lastGroup st |}.

Definition set_lastGroup (g : string) (st : Build) : Build :=
  {| p := p st; kinds := kinds st; lastGroup := g |}.

(** The comparison handed to [sort.Slice]. *)
Definition less (x y : string) : bool :=
  let '(resourcex, groupx, _) := Cut_dot x in
  let '(resourcey, groupy, _) := Cut_dot y in
  if String.eqb groupx groupy then cmp_Less resourcex resourcey
  else cmp_Less groupx groupy.

Section Table.
Variable Access_zero : Access.
Variable ToUpper : string -> string.

Definition table_headers (verbs : list string) : list Renderable :=
  let headers := [OfText (mkText "NAME")] in
  fold_left (fun headers v => (headers ++ [OfText (mkText (ToUpper v))])%list)
            verbs headers.

(** The body of the loop over [names]. *)
Definition Table_body (ra : ResourceAccess) (verbs : list string)
    (name : string) (st : Build) : Build :=
  let '(resource, group, _) := Cut_dot name in
  let st :=
    if negb (String.eqb group (lastGroup st)) then
      let st := AddRow_as Spacer st (TextList [" "]) [None_] in
      let st := AddRow_as (GroupHeader group) st [BoldText (group +:+ ":")] [None_] in
      set_lastGroup group st
    else st in
  let res := index_ra ra name in
  let outcomes := row_outcomes Access_zero res verbs in
  AddRow_as (Data name) st (TextList [resource]) outcomes.

(** [Table] once [range ra] has yielded the names in the order [names]. *)
Definition Table_build (names : list string) (ra : ResourceAccess)
    (verbs : list string) : Build :=
  let names := fold_left (fun names name => (names ++ [name])%list) names [] in
  let names := sort_Slice less names in
  let headers := table_headers verbs in
  let st := {| p := TableWithHeaders headers; kinds := []; lastGroup := "" |} in
  for_range (fun _ name st => Table_body ra verbs name st) names st.

Definition Table (ra : ResourceAccess) (verbs : list string) : printer.Table Renderable :=
  p (Table_build (names_of ra) ra verbs).

Definition Table_rows (ra : ResourceAccess) (verbs : list string)
    : list (RowKind * printer.Row Renderable) :=
  let st := Table_build (names_of ra) ra verbs in
  zip (kinds st) (Rows (p st)).

End Table.

End result_cut.

(** ASCII letters to upper case; the examples use it for [strings.ToUpper]. *)
Definition upper_byte (c : ascii) : ascii :=
  let n := nat_of_ascii c in
  if (97 <=? n)%nat && (n <=? 122)%nat then ascii_of_nat (n - 32) else c.

Fixpoint ascii_ToUpper (s : string) : string :=
  match s with
  | EmptyString => EmptyString
  | String c s' => String.String (upper_byte c) (ascii_ToUpper s')
  end.

(** The example of the specification:
    [{"pods": {"get": Allowed, "list": Denied}, "pods.apps": {"get": RequestErr}}]. *)
Definition pods_example : gmap string (gmap string result.Access) :=
  {[ "pods" := {[ "get" := result.Allowed; "list" := result.Denied ]};
     "pods.apps" := {[ "get" := result.RequestErr ]} ]}.

(** * The vocabulary of the properties *)

Import printer schema result.

(** ** Rendering *)

Definition terminal_default : Env := {| IsTerminal := true; OutputFormat := "default" |}.

(** C5, as stated: on a terminal with the default format the outcome [None]
    is rendered as its bare glyph, with no escape sequence around it. *)
Definition rendered_bare (o : Outcome) (e : Env) : Prop :=
  Outcome_Render o e = humanreadableAccessCode o.

(** The strings of the ASCII mode. *)
Definition ascii_words : list string := ["n/a"; "yes"; "no"; "ERR"].

(** A cell whose rendering does not look at the terminal flag. *)
Definition terminal_blind {I : Type} `{Renders I} (c : I) : Prop :=
  forall (f : string) (t1 t2 : bool),
    Render c {| IsTerminal := t1; OutputFormat := f |} =
    Render c {| IsTerminal := t2; OutputFormat := f |}.

(** The cells of a header line, each behind a tab. *)
Definition tabbed (cells : list string) : string :=
  fold_right (fun s rest => tab +:+ s +:+ rest) "" cells.

(** ** Order *)

(** [x] may stand before [y]: [y] is not less than [x]. *)
Definition not_after {A : Type} (less : A -> A -> bool) (x y : A) : Prop :=
  less y x = false.

(** The order of the pairs (group, resource): by the bytes of the group, and
    by the bytes of the resource within a group. *)
Definition string_lt (a b : string) : Prop := String.compare a b = Lt.

Definition string_le (a b : string) : Prop := String.compare a b <> Gt.

Definition pair_le (x y : GroupResource) : Prop :=
  string_lt (Group x) (Group y) \/
  (Group x = Group y /\ string_le (Resource x) (Resource y)).

(** ** Rows *)

(** The label of a group in its header: ["core"] for the empty group. *)
Definition display_group (g : string) : string :=
  if String.eqb g "" then "core" else g.

Definition spacer_row : Row string := {| Intro := [" "]; Entries := [None_] |}.

Definition is_header (k : RowKind) : bool :=
  match k with GroupHeader _ => true | _ => false end.

Definition is_spacer (k : RowKind) : bool :=
  match k with Spacer => true | _ => false end.

Definition is_data (k : RowKind) : bool :=
  match k with Data _ => true | _ => false end.

Definition count_rows (f : RowKind -> bool) (rows : list (RowKind * Row string)) : nat :=
  length (List.filter f rows.*1).

(** C10, as stated: the rows of the table do not all have the same number
    of outcomes. *)
Definition ragged (p : printer.Table string) : Prop :=
  exists r1 r2, r1 ∈ Rows p /\ r2 ∈ Rows p /\
                length (Entries r1) <> length (Entries r2).

Definition cut_ragged (p : printer.Table Renderable) : Prop :=
  exists r1 r2, r1 ∈ Rows p /\ r2 ∈ Rows p /\
                length (Entries r1) <> length (Entries r2).

(** The resources of the data rows, in the order of the rows. *)
Definition data_resources (rows : list (RowKind * Row string)) : list GroupResource :=
  omap (fun kr => match kr.1 with Data gr => Some gr | _ => None end) rows.

Section Rows.
Variable Access_zero : Access.
Variable ToUpper : string -> string.

(** The parsed names of [ra], sorted by [less]. *)
Definition sorted_resources (ra : ResourceAccess) : list GroupResource :=
  sort_Slice less (map ParseGroupResource (names_of ra)).

Definition header_row (verbs : list string) (g : string) : Row string :=
  {| Intro := (display_group g +:+ ":") :: map ToUpper verbs; Entries := [None_] |}.

(** The cell of the verb [v] in the row of [gr]. *)
Definition cell (ra : ResourceAccess) (gr : GroupResource) (v : string) : Outcome :=
  outcome_of (index Access_zero (index_ra ra (GroupResource_String gr)) v).

Definition data_row (ra : ResourceAccess) (verbs : list string) (gr : GroupResource)
    : Row string :=
  {| Intro := [Resource gr]; Entries := map (cell ra gr) verbs |}.

(** The rows that come with one resource: a header in front of the very first
    one, a spacer and a header where the group differs from the one of the
    resource before ([prev]), and the data row. *)
Definition block (ra : ResourceAccess) (verbs : list string)
    (prev : option GroupResource) (gr : GroupResource) : list (RowKind * Row string) :=
  let header := (GroupHeader (Group gr), header_row verbs (Group gr)) in
  let lead :=
    match prev with
    | None => [header]
    | Some q =>
        if decide (Group q = Group gr) then [] else [(Spacer, spacer_row); header]
    end in
  (lead ++ [(Data gr, data_row ra verbs gr)])%list.

Fixpoint grouped (ra : ResourceAccess) (verbs : list string)
    (prev : option GroupResource) (grs : list GroupResource)
    : list (RowKind * Row string) :=
  match grs with
  | [] => []
  | gr :: rest => (block ra verbs prev gr ++ grouped ra verbs (Some gr) rest)%list
  end.

End Rows.

(** ** Names and their parsed form *)

(** A name is canonical when it is the string of its own parsed form. *)
Definition canonical (name : string) : Prop :=
  GroupResource_String (ParseGroupResource name) = name.

#[global] Instance canonical_dec (name : string) : Decision (canonical name).
Proof. unfold canonical. apply _. Defined.

(** The outcome that the map stores for a verb, [None] for none. *)
Definition stored (res : gmap string Access) (v : string) : Outcome :=
  match res !! v with
  | Some a => outcome_of a
  | None => None_
  end.

(** C2, as stated: the data row of each name of the map has one cell for
    each verb, the stored outcome of that name and verb. *)
Definition cells_are_stored (Access_zero : Access) (ToUpper : string -> string)
    (ra : ResourceAccess) (verbs : list string) : Prop :=
  forall name res row,
    ra !! name = Some res ->
    (Data (ParseGroupResource name), row) ∈ Table_rows Access_zero ToUpper ra verbs ->
    length (Entries row) = length verbs /\
    forall i v, verbs !! i = Some v -> Entries row !! i = Some (stored res v).

(** A map with the name ["pods."], which is not canonical. *)
Definition trailing_dot_example : gmap string (gmap string Access) :=
  {[ "pods" := {[ "get" := Denied ]};
     "pods." := {[ "get" := Allowed ]} ]}.

(** ** The rows of the revision that cuts the names *)

Definition cut_resource (name : string) : string := (Cut_dot name).1.1.

Definition cut_group (name : string) : string := (Cut_dot name).1.2.

Definition cut_spacer_row : Row Renderable :=
  {| Intro := [OfText (mkText " ")]; Entries := [None_] |}.

Definition cut_header_row (g : string) : Row Renderable :=
  {| Intro := [BoldText (g +:+ ":")]; Entries := [None_] |}.

Definition cut_data_row (Access_zero : Access) (ra : ResourceAccess)
    (verbs : list string) (name : string) : Row Renderable :=
  {| Intro := [OfText (mkText (cut_resource name))];
     Entries := map (fun v => outcome_of (index Access_zero (index_ra ra name) v)) verbs |}.

(** The rows that come with one name: a spacer and a header where the group
    differs from [last], the group of the name before or the empty string at
    the start, and the data row. *)
Definition cut_block (Access_zero : Access) (ra : ResourceAccess) (verbs : list string)
    (last : string) (name : string) : list (result_cut.RowKind * Row Renderable) :=
  let g := cut_group name in
  let lead :=
    if decide (g = last) then []
    else [(result_cut.Spacer, cut_spacer_row);
          (result_cut.GroupHeader g, cut_header_row g)] in
  (lead ++ [(result_cut.Data name, cut_data_row Access_zero ra verbs name)])%list.

Fixpoint cut_grouped (Access_zero : Access) (ra : ResourceAccess) (verbs : list string)
    (last : string) (names : list string)
    : list (result_cut.RowKind * Row Renderable) :=
  match names with
  | [] => []
  | name :: rest =>
      (cut_block Access_zero ra verbs last name
       ++ cut_grouped Access_zero ra verbs (cut_group name) rest)%list
  end.

Definition cut_sorted_names (ra : ResourceAccess) : list string :=
  sort_Slice result_cut.less (names_of ra).

Definition cut_is_header (k : result_cut.RowKind) : bool :=
  match k with result_cut.GroupHeader _ => true | _ => false end.

Definition cut_is_spacer (k : result_cut.RowKind) : bool :=
  match k with result_cut.Spacer => true | _ => false end.

Definition cut_is_data (k : result_cut.RowKind) : bool :=
  match k with result_cut.Data _ => true | _ => false end.

(** * Properties *)

(** ** Rendering an outcome *)

Lemma declared_cases (o : Outcome) :
  declared o \/
  (N.eqb o None_ = false /\ N.eqb o Up = false /\
   N.eqb o Down = false /\ N.eqb o Err = false).
Proof.
  unfold declared.
  destruct (N.eqb_spec o None_); [by left; left|].
  destruct (N.eqb_spec o Up); [by left; right; left|].
  destruct (N.eqb_spec o Down); [by left; right; right; left|].
  destruct (N.eqb_spec o Err); [by left; right; right; right|].
  by right.
Qed.

Lemma human_panics (o : Outcome) :
  ~ declared o -> humanreadableAccessCode o = Panic "unknown access code".
Proof.
  intros Hn. destruct (declared_cases o) as [Hd|(H0 & H1 & H2 & H3)]; [done|].
  unfold humanreadableAccessCode. by rewrite H0, H1, H2, H3.
Qed.

Lemma ascii_panics (o : Outcome) :
  ~ declared o -> asciiAccessCode o = Panic "unknown access code".
Proof.
  intros Hn. destruct (declared_cases o) as [Hd|(H0 & H1 & H2 & H3)]; [done|].
  unfold asciiAccessCode. by rewrite H0, H1, H2, H3.
Qed.

(** What [Render] computes in each of the three modes. *)
Lemma Outcome_Render_ascii (o : Outcome) (e : Env) :
  OutputFormat e = "ascii-table" -> Outcome_Render o e = asciiAccessCode o.
Proof. intros Hf. unfold Outcome_Render. by rewrite Hf. Qed.

Lemma Outcome_Render_other (o : Outcome) (e : Env) :
  OutputFormat e <> "ascii-table" ->
  Outcome_Render o e =
    if IsTerminal e then colored humanreadableAccessCode o
    else humanreadableAccessCode o.
Proof.
  intros Hf. unfold Outcome_Render.
  destruct (String.eqb_spec (OutputFormat e) "ascii-table"); [done|].
  by destruct (IsTerminal e).
Qed.

(** C5 (counterexample): on a terminal with the default format the rendering
    of [None] is not the bare empty glyph: it is the colour frame with code 0
    around it, and holds the byte ESC twice. *)
Lemma C5_none_is_framed :
  ~ rendered_bare None_ terminal_default /\
  Outcome_Render None_ terminal_default =
    Ok (xff +:+ esc +:+ "[0m" +:+ xff +:+ xff +:+ esc +:+ "[0m" +:+ xff) /\
  (forall s, Outcome_Render None_ terminal_default = Ok s -> has_escape s = true).
Proof.
  split; [|split].
  - unfold rendered_bare. vm_compute. discriminate.
  - reflexivity.
  - intros s Hs. vm_compute in Hs. injection Hs as <-. reflexivity.
Qed.

(** C5 (amended): on a terminal, with the default format, every declared
    outcome is rendered as its glyph inside the colour frame
    [\xff ESC[<c>m \xff glyph \xff ESC[0m \xff]: [c] is 32 (green) for [Up],
    31 (red) for [Down], 35 (purple) for [Err] and 0 (no colour) for [None],
    whose empty glyph is framed like the others. *)
Theorem C5_terminal_frames :
  Outcome_Render Up terminal_default =
    Ok (xff +:+ esc +:+ "[32m" +:+ xff +:+ check_mark +:+ xff +:+ esc +:+ "[0m" +:+ xff) /\
  Outcome_Render Down terminal_default =
    Ok (xff +:+ esc +:+ "[31m" +:+ xff +:+ cross_mark +:+ xff +:+ esc +:+ "[0m" +:+ xff) /\
  Outcome_Render Err terminal_default =
    Ok (xff +:+ esc +:+ "[35m" +:+ xff +:+ "ERR" +:+ xff +:+ esc +:+ "[0m" +:+ xff) /\
  Outcome_Render None_ terminal_default =
    Ok (xff +:+ esc +:+ "[0m" +:+ xff +:+ "" +:+ xff +:+ esc +:+ "[0m" +:+ xff) /\
  (color_of Up = green /\ color_of Down = red /\ color_of Err = purple /\
   color_of None_ = none) /\
  (forall o : Outcome, declared o ->
     exists glyph, humanreadableAccessCode o = Ok glyph /\
       Outcome_Render o terminal_default = Ok (color_frame (color_of o) glyph)).
Proof.
  repeat split.
  intros o [-> | [-> | [-> | ->]]]; eexists; split; reflexivity.
Qed.

Lemma range_from_ext {A S : Type} (f g : nat -> A -> S -> result S) (l : list A) :
  (forall i x s, x ∈ l -> f i x s = g i x s) ->
  forall i s, range_from f i l s = range_from g i l s.
Proof.
  induction l as [|x l IH]; intros Hfg i s; simpl; [done|].
  rewrite Hfg by left. destruct (g i x s); simpl; [|done].
  apply IH. intros j y s' Hy. apply Hfg. by right.
Qed.

Lemma Render_entries_ascii (e e' : Env) (entries : list Outcome) (w : string) :
  OutputFormat e = "ascii-table" -> OutputFormat e' = "ascii-table" ->
  Render_entries e entries w = Render_entries e' entries w.
Proof.
  intros He He'. unfold Render_entries, range. apply range_from_ext.
  intros i o s _. by rewrite !Outcome_Render_ascii.
Qed.

(** With intro and header cells that do not look at the terminal flag, the
    bytes of a table in ASCII mode are the same on a terminal and off it. *)
Lemma Table_Render_ascii_any_terminal {I : Type} `{Renders I} (p : printer.Table I) (t1 t2 : bool) :
  (forall c, c ∈ Headers p -> terminal_blind c) ->
  (forall row c, row ∈ Rows p -> c ∈ Intro row -> terminal_blind c) ->
  Table_Render p t1 "ascii-table" = Table_Render p t2 "ascii-table".
Proof.
  intros Hh Hr. unfold Table_Render.
  replace (Render_headers {| IsTerminal := t1; OutputFormat := "ascii-table" |} (Headers p) "")
    with (Render_headers {| IsTerminal := t2; OutputFormat := "ascii-table" |} (Headers p) "").
  2:{ unfold Render_headers, range. apply range_from_ext. intros i c s Hc.
      by rewrite (Hh c Hc "ascii-table" t2 t1). }
  destruct (Render_headers _ _ _) as [w|]; simpl; [|done].
  unfold range. apply range_from_ext. intros _ row s Hrow.
  unfold Render_row.
  replace (Render_intro {| IsTerminal := t1; OutputFormat := "ascii-table" |} (Intro row) s)
    with (Render_intro {| IsTerminal := t2; OutputFormat := "ascii-table" |} (Intro row) s).
  2:{ unfold Render_intro, range. apply range_from_ext. intros i c s' Hc.
      by rewrite (Hr row c Hrow Hc "ascii-table" t2 t1). }
  destruct (Render_intro _ _ _) as [w'|]; simpl; [|done].
  by rewrite (Render_entries_ascii _ {| IsTerminal := t2; OutputFormat := "ascii-table" |}).
Qed.

(** C6: in the format ["ascii-table"] an outcome is rendered by
    [asciiAccessCode] alone: a declared outcome gives one of "n/a", "yes",
    "no", "ERR", without the byte ESC, and the result (also the panic of an
    undeclared outcome) is the same whatever the terminal flag. So the
    outcome cells of a row are the same bytes in any two ASCII renderings,
    rendering a table twice to the same stream gives the same bytes, and so
    does rendering it once on a terminal and once off it when its other
    cells do not look at the terminal flag. *)
Theorem C6_ascii_is_plain_and_terminal_independent (o : Outcome) (e : Env) :
  OutputFormat e = "ascii-table" ->
  (declared o ->
     exists s, Outcome_Render o e = Ok s /\ s ∈ ascii_words /\ has_escape s = false) /\
  (forall s, Outcome_Render o e = Ok s -> s ∈ ascii_words /\ has_escape s = false) /\
  (forall e', OutputFormat e' = "ascii-table" ->
     Outcome_Render o e' = Outcome_Render o e) /\
  (forall (entries : list Outcome) (w : string) (e' : Env),
     OutputFormat e' = "ascii-table" ->
     Render_entries e' entries w = Render_entries e entries w) /\
  (forall (p : printer.Table Renderable) (t : bool) (out1 out2 : result string),
     Table_Render p t "ascii-table" = out1 ->
     Table_Render p t "ascii-table" = out2 -> out1 = out2) /\
  (forall (p : printer.Table Renderable) (t1 t2 : bool),
     (forall c, c ∈ Headers p -> terminal_blind c) ->
     (forall row c, row ∈ Rows p -> c ∈ Intro row -> terminal_blind c) ->
     Table_Render p t1 "ascii-table" = Table_Render p t2 "ascii-table").
Proof.
  intros He. rewrite Outcome_Render_ascii by done.
  split; [|split; [|split; [|split; [|split]]]].
  - intros [-> | [-> | [-> | ->]]]; eexists; (split; [reflexivity|]);
      (split; [unfold ascii_words; set_solver|reflexivity]).
  - intros s. unfold asciiAccessCode, ascii_words.
    repeat case_match; intros [= <-]; (split; [set_solver|reflexivity]).
  - intros e' He'. by rewrite Outcome_Render_ascii.
  - intros entries w e' He'. by apply Render_entries_ascii.
  - by intros p t out1 out2 <- <-.
  - intros p t1 t2. apply Table_Render_ascii_any_terminal.
Qed.

(** C6 at the outcome [Up] on a terminal. *)
Lemma C6_ascii_witness :
  exists s, Outcome_Render Up {| IsTerminal := true; OutputFormat := "ascii-table" |} = Ok s /\
            s ∈ ascii_words /\ has_escape s = false.
Proof.
  apply (C6_ascii_is_plain_and_terminal_independent Up
           {| IsTerminal := true; OutputFormat := "ascii-table" |}).
  - reflexivity.
  - unfold declared. right. left. reflexivity.
Defined.

(** C7: [Render] panics on every outcome that is none of the four declared
    constants, in every environment, and on none of the four. *)
Theorem C7_render_panics_exactly_on_undeclared (o : Outcome) (e : Env) :
  (~ declared o -> Outcome_Render o e = Panic "unknown access code") /\
  (declared o -> exists s, Outcome_Render o e = Ok s).
Proof.
  split.
  - intros Hn. destruct e as [t f]. unfold Outcome_Render. simpl.
    destruct t, (String.eqb f "ascii-table"); unfold colored;
      rewrite ?ascii_panics, ?human_panics by done; done.
  - destruct e as [t f]. unfold Outcome_Render. simpl.
    intros [-> | [-> | [-> | ->]]]; destruct t, (String.eqb f "ascii-table");
      eexists; reflexivity.
Qed.

(** C8: a format other than ["ascii-table"] (the empty string, any unknown
    word) is rendered as the format ["default"] is, for the same terminal
    flag. *)
Theorem C8_other_formats_are_default (o : Outcome) (t : bool) (f : string) :
  f <> "ascii-table" ->
  Outcome_Render o {| IsTerminal := t; OutputFormat := f |} =
  Outcome_Render o {| IsTerminal := t; OutputFormat := "default" |}.
Proof.
  intros Hf. rewrite !Outcome_Render_other; done.
Qed.

(** C8 at the outcome [Down], on a terminal, with the empty format. *)
Lemma C8_witness :
  Outcome_Render Down {| IsTerminal := true; OutputFormat := "" |} =
  Outcome_Render Down {| IsTerminal := true; OutputFormat := "default" |}.
Proof.
  apply (C8_other_formats_are_default Down true ""). discriminate.
Defined.

(** ** Order of strings and sorting *)

Lemma fold_left_snoc {A B : Type} (f : A -> B) (l : list A) (init : list B) :
  fold_left (fun acc x => (acc ++ [f x])%list) l init = (init ++ map f l)%list.
Proof.
  revert init. induction l as [|x l IH]; intros init; simpl.
  - by rewrite app_nil_r.
  - by rewrite IH, <- app_assoc.
Qed.

Lemma ascii_compare_refl (a : ascii) : Ascii.compare a a = Eq.
Proof. apply N.compare_refl. Qed.

Lemma ascii_compare_lt_trans (a b c : ascii) :
  Ascii.compare a b = Lt -> Ascii.compare b c = Lt -> Ascii.compare a c = Lt.
Proof.
  unfold Ascii.compare. rewrite !N.compare_lt_iff. apply N.lt_trans.
Qed.

Lemma string_compare_refl (s : string) : String.compare s s = Eq.
Proof. induction s as [|a s IH]; simpl; [done|]. by rewrite ascii_compare_refl. Qed.

Lemma string_compare_lt_trans (a b c : string) :
  String.compare a b = Lt -> String.compare b c = Lt -> String.compare a c = Lt.
Proof.
  revert b c. induction a as [|x a IH]; intros [|y b] [|z c]; simpl; try done.
  destruct (Ascii.compare x y) eqn:Hxy; try done.
  - apply Ascii.compare_eq_iff in Hxy as ->.
    destruct (Ascii.compare y z); try done. apply IH.
  - intros _. destruct (Ascii.compare y z) eqn:Hyz; try done.
    + apply Ascii.compare_eq_iff in Hyz as <-. by rewrite Hxy.
    + by rewrite (ascii_compare_lt_trans _ _ _ Hxy Hyz).
Qed.

Lemma cmp_Less_irrefl (s : string) : cmp_Less s s = false.
Proof. unfold cmp_Less, String.ltb. by rewrite string_compare_refl. Qed.

Lemma cmp_Less_asym (a b : string) : cmp_Less a b = true -> cmp_Less b a = false.
Proof.
  unfold cmp_Less, String.ltb. rewrite (String.compare_antisym b a).
  by destruct (String.compare a b).
Qed.

Lemma cmp_Less_trans (a b c : string) :
  cmp_Less a b = true -> cmp_Less b c = true -> cmp_Less a c = true.
Proof.
  unfold cmp_Less, String.ltb. intros Hab Hbc.
  rewrite (string_compare_lt_trans a b c); [done| |].
  - by destruct (String.compare a b).
  - by destruct (String.compare b c).
Qed.

Lemma cmp_Less_connex (a b : string) :
  cmp_Less a b = false -> cmp_Less b a = false -> a = b.
Proof.
  unfold cmp_Less, String.ltb. rewrite (String.compare_antisym b a).
  destruct (String.compare a b) eqn:Hab; try done.
  intros _ _. by apply String.compare_eq_iff.
Qed.

Section SortFacts.
Context {A : Type} (less : A -> A -> bool).

Hypothesis less_asym : forall x y, less x y = true -> less y x = false.

Lemma sort_insert_Permutation (x : A) (l : list A) : sort_insert less x l ≡ₚ x :: l.
Proof.
  induction l as [|y l IH]; simpl; [done|].
  destruct (less x y); [done|]. rewrite IH. apply Permutation_swap.
Qed.

Lemma sort_Slice_Permutation (l : list A) : sort_Slice less l ≡ₚ l.
Proof.
  unfold sort_Slice.
  enough (forall acc, fold_left (fun sorted x => sort_insert less x sorted) l acc ≡ₚ acc ++ l)
    as Hgen by apply (Hgen []).
  induction l as [|x l IH]; intros acc; simpl.
  - by rewrite app_nil_r.
  - rewrite IH, sort_insert_Permutation. simpl. apply Permutation_middle.
Qed.

Lemma HdRel_sort_insert (a x : A) (l : list A) :
  (not_after less) a x -> HdRel (not_after less) a l -> HdRel (not_after less) a (sort_insert less x l).
Proof.
  intros Hax Hl. destruct l as [|y l]; simpl; [by constructor|].
  destruct (less x y); constructor; [done|]. by inversion Hl.
Qed.

Lemma Sorted_sort_insert (x : A) (l : list A) :
  Sorted (not_after less) l -> Sorted (not_after less) (sort_insert less x l).
Proof.
  induction 1 as [|y l Hl IH Hhd]; simpl; [by repeat constructor|].
  destruct (less x y) eqn:Hxy.
  - constructor; [by constructor|]. constructor. by apply less_asym.
  - constructor; [done|]. by apply HdRel_sort_insert.
Qed.

Lemma Sorted_sort_Slice (l : list A) : Sorted (not_after less) (sort_Slice less l).
Proof.
  unfold sort_Slice.
  enough (forall acc, Sorted (not_after less) acc ->
            Sorted (not_after less) (fold_left (fun sorted x => sort_insert less x sorted) l acc))
    as Hgen by (apply Hgen; constructor).
  induction l as [|x l IH]; intros acc Hacc; simpl; [done|].
  apply IH. by apply Sorted_sort_insert.
Qed.

(** Whatever the algorithm, a slice sorted by [less] is the one above. *)
Lemma sort_Slice_unique `{!Transitive (not_after less), !AntiSymm (=) (not_after less)}
    (l l' : list A) :
  l' ≡ₚ l -> Sorted (not_after less) l' -> l' = sort_Slice less l.
Proof.
  intros Hp Hs. apply (Sorted_unique (not_after less)); [done|apply Sorted_sort_Slice|].
  by rewrite sort_Slice_Permutation.
Qed.

Lemma sort_Slice_any_order `{!Transitive (not_after less), !AntiSymm (=) (not_after less)}
    (l l' : list A) :
  l ≡ₚ l' -> sort_Slice less l = sort_Slice less l'.
Proof.
  intros Hp. apply sort_Slice_unique; [|apply Sorted_sort_Slice].
  by rewrite sort_Slice_Permutation.
Qed.
End SortFacts.

(** ** The order of [less] on group resources *)

Lemma less_irrefl (x : GroupResource) : less x x = false.
Proof. unfold less. rewrite String.eqb_refl. simpl. apply cmp_Less_irrefl. Qed.

Lemma less_asym (x y : GroupResource) : less x y = true -> less y x = false.
Proof.
  unfold less. rewrite (String.eqb_sym (Group y)).
  destruct (String.eqb (Group x) (Group y)); simpl; apply cmp_Less_asym.
Qed.

Lemma less_connex (x y : GroupResource) :
  less x y = false -> less y x = false -> x = y.
Proof.
  destruct x as [gx rx], y as [gy ry]. unfold less. simpl.
  rewrite (String.eqb_sym gy).
  destruct (String.eqb_spec gx gy) as [->|Hne]; simpl; intros H1 H2.
  - by rewrite (cmp_Less_connex rx ry).
  - destruct Hne. by apply cmp_Less_connex.
Qed.

Lemma less_trans (x y z : GroupResource) :
  less x y = true -> less y z = true -> less x z = true.
Proof.
  destruct x as [gx rx], y as [gy ry], z as [gz rz]. unfold less.
  cbn [Group Resource].
  destruct (String.eqb_spec gx gy) as [->|Hxy],
           (String.eqb_spec gy gz) as [->|Hyz]; cbn [negb]; intros H1 H2.
  - by apply (cmp_Less_trans rx ry rz).
  - done.
  - destruct (String.eqb_spec gx gz); done.
  - assert (Hxz : cmp_Less gx gz = true) by by apply (cmp_Less_trans gx gy gz).
    destruct (String.eqb_spec gx gz) as [->|]; cbn [negb]; [|done].
    by rewrite cmp_Less_irrefl in Hxz.
Qed.

#[global] Instance not_after_less_trans : Transitive (not_after less).
Proof.
  intros x y z Hxy Hyz. unfold not_after in *.
  destruct (less z x) eqn:Hzx; [|done].
  destruct (less x y) eqn:Hxy'.
  - by rewrite (less_trans z x y) in Hyz.
  - rewrite (less_connex x y) in Hzx by done. by rewrite Hzx in Hyz.
Qed.

#[global] Instance not_after_less_antisym : AntiSymm (=) (not_after less).
Proof. intros x y Hxy Hyx. by apply less_connex. Qed.

(** ** The rows of [Table], said without the loop *)

Section TableFacts.
Variable Access_zero : Access.
Variable ToUpper : string -> string.

Lemma row_outcomes_map (ra : ResourceAccess) (verbs : list string) (gr : GroupResource) :
  row_outcomes Access_zero (index_ra ra (GroupResource_String gr)) verbs
  = map (cell Access_zero ra gr) verbs.
Proof. unfold row_outcomes. by rewrite fold_left_snoc. Qed.

Lemma upper_verbs_map (verbs : list string) :
  upper_verbs ToUpper verbs = map ToUpper verbs.
Proof. unfold upper_verbs. by rewrite fold_left_snoc. Qed.

(** One turn of the loop adds the block of its resource, when [lastGroup] is
    the group of the resource before. *)
Lemma Table_body_block (ra : ResourceAccess) (verbs : list string) (i : nat)
    (prev : option GroupResource) (gr : GroupResource) (st : Build) :
  (i = 0 <-> prev = None) ->
  (forall q, prev = Some q -> lastGroup st = Group q) ->
  let st' := Table_body Access_zero ra verbs (map ToUpper verbs) i gr st in
  Headers (p st') = Headers (p st) /\
  Rows (p st') = (Rows (p st) ++ (block Access_zero ToUpper ra verbs prev gr).*2)%list /\
  kinds st' = (kinds st ++ (block Access_zero ToUpper ra verbs prev gr).*1)%list /\
  lastGroup st' = Group gr.
Proof.
  intros Hi Hlast. unfold Table_body, block. rewrite row_outcomes_map.
  destruct prev as [q|].
  - assert (i <> 0) as Hi0 by (intros Hz; by apply Hi in Hz).
    apply Nat.eqb_neq in Hi0. rewrite Hi0, (Hlast q eq_refl). simpl.
    rewrite orb_false_r.
    destruct (String.eqb_spec (Group gr) (Group q)) as [Heq|Hne]; simpl.
    + rewrite decide_True by done. simpl. rewrite Hlast with (q:=q) by done.
      by repeat split.
    + rewrite decide_False by done. simpl.
      rewrite <- !app_assoc. by repeat split.
  - assert (i = 0) as -> by by apply Hi. rewrite orb_true_r. simpl.
    rewrite <- !app_assoc. by repeat split.
Qed.

Lemma Table_loop_grouped (ra : ResourceAccess) (verbs : list string)
    (grs : list GroupResource) :
  forall (i : nat) (prev : option GroupResource) (st : Build),
    (i = 0 <-> prev = None) ->
    (forall q, prev = Some q -> lastGroup st = Group q) ->
    let st' := for_range_from (Table_body Access_zero ra verbs (map ToUpper verbs)) i grs st in
    Headers (p st') = Headers (p st) /\
    Rows (p st') = (Rows (p st) ++ (grouped Access_zero ToUpper ra verbs prev grs).*2)%list /\
    kinds st' = (kinds st ++ (grouped Access_zero ToUpper ra verbs prev grs).*1)%list.
Proof.
  induction grs as [|gr grs IH]; intros i prev st Hi Hlast; simpl.
  - by rewrite !app_nil_r.
  - destruct (Table_body_block ra verbs i prev gr st Hi Hlast) as (Hh & Hr & Hk & Hg).
    destruct (IH (S i) (Some gr)
                 (Table_body Access_zero ra verbs (map ToUpper verbs) i gr st))
      as (Hh' & Hr' & Hk'); [done|by intros q [= <-]|].
    rewrite Hh', Hr', Hk', Hh, Hr, Hk, !fmap_app, !app_assoc. done.
Qed.

(** [Table] is the table without headers whose rows are the blocks of the
    sorted resources. *)
Lemma Table_rows_grouped (ra : ResourceAccess) (verbs : list string) :
  Table_rows Access_zero ToUpper ra verbs = grouped Access_zero ToUpper ra verbs None (sorted_resources ra).
Proof.
  unfold Table_rows, Table_build, for_range.
  rewrite fold_left_snoc, upper_verbs_map. simpl.
  destruct (Table_loop_grouped ra verbs (sorted_resources ra) 0 None
              {| p := TableWithHeaders []; kinds := []; lastGroup := "" |})
    as (_ & Hr & Hk); [done|done|].
  unfold sorted_resources in *. rewrite Hr, Hk. simpl.
  apply zip_fst_snd.
Qed.

Lemma Table_grouped (ra : ResourceAccess) (verbs : list string) :
  Table Access_zero ToUpper ra verbs =
  {| Headers := []; Rows := (grouped Access_zero ToUpper ra verbs None (sorted_resources ra)).*2 |}.
Proof.
  unfold Table, Table_build, for_range.
  rewrite fold_left_snoc, upper_verbs_map. simpl.
  destruct (Table_loop_grouped ra verbs (sorted_resources ra) 0 None
              {| p := TableWithHeaders []; kinds := []; lastGroup := "" |})
    as (Hh & Hr & _); [done|done|].
  unfold sorted_resources in *.
  destruct (p _) as [hs rows]. simpl in *. by rewrite Hh, Hr.
Qed.

(** ** The names of a map and the sorted resources *)

Lemma names_of_empty : names_of (∅ : ResourceAccess) = [].
Proof. unfold names_of. by rewrite map_to_list_empty. Qed.

Lemma elem_of_names_of (ra : ResourceAccess) (name : string) :
  name ∈ names_of ra <-> is_Some (ra !! name).
Proof.
  unfold names_of. rewrite list_elem_of_fmap. split.
  - intros ([n res] & -> & Hin). apply elem_of_map_to_list in Hin. by exists res.
  - intros [res Hres]. exists (name, res). split; [done|]. by apply elem_of_map_to_list.
Qed.

Lemma names_of_nil (ra : ResourceAccess) : names_of ra = [] -> ra = ∅.
Proof.
  unfold names_of. intros Hnil. apply fmap_nil_inv in Hnil.
  by apply map_to_list_empty_iff.
Qed.

Lemma sorted_resources_Permutation (ra : ResourceAccess) :
  sorted_resources ra ≡ₚ map ParseGroupResource (names_of ra).
Proof. apply sort_Slice_Permutation. Qed.

Lemma sorted_resources_Sorted (ra : ResourceAccess) :
  StronglySorted (not_after less) (sorted_resources ra).
Proof.
  apply Sorted_StronglySorted; [apply _|].
  apply Sorted_sort_Slice, less_asym.
Qed.

Lemma elem_of_sorted_resources (ra : ResourceAccess) (gr : GroupResource) :
  gr ∈ sorted_resources ra <->
  exists name, is_Some (ra !! name) /\ ParseGroupResource name = gr.
Proof.
  rewrite sorted_resources_Permutation, list_elem_of_In, in_map_iff.
  split; intros (name & H1 & H2); exists name.
  - split; [|done]. by apply elem_of_names_of, list_elem_of_In.
  - split; [done|]. by apply list_elem_of_In, elem_of_names_of.
Qed.

Lemma sorted_resources_empty : sorted_resources ∅ = [].
Proof. unfold sorted_resources. by rewrite names_of_empty. Qed.

Lemma sorted_resources_nil (ra : ResourceAccess) : sorted_resources ra = [] -> ra = ∅.
Proof.
  intros Hnil. apply names_of_nil.
  pose proof (sorted_resources_Permutation ra) as Hp. rewrite Hnil in Hp.
  apply Permutation_nil_l in Hp. by destruct (names_of ra).
Qed.

Lemma not_after_pair_le (x y : GroupResource) : not_after less x y <-> pair_le x y.
Proof.
  destruct x as [gx rx], y as [gy ry].
  unfold not_after, less, pair_le, string_lt, string_le, cmp_Less, String.ltb.
  cbn [Group Resource].
  rewrite (String.compare_antisym rx ry), (String.compare_antisym gx gy).
  destruct (String.eqb_spec gy gx) as [->|Hne]; cbn [negb].
  - rewrite string_compare_refl. simpl.
    destruct (String.compare ry rx); simpl; split; try done;
      try (intros _; right; done); intros [?|[_ ?]]; done.
  - destruct (String.compare gy gx) eqn:Hc; simpl; split; try done.
    + by apply String.compare_eq_iff in Hc.
    + intros [?|[? _]]; done.
    + by left.
Qed.

(** ** The kinds of the rows *)

Section GroupedFacts.
Variable ra : ResourceAccess.
Variable verbs : list string.

Lemma elem_of_block (prev : option GroupResource) (gr : GroupResource)
    (k : RowKind) (row : Row string) :
  (k, row) ∈ block Access_zero ToUpper ra verbs prev gr ->
  (k = Spacer /\ row = spacer_row) \/
  (k = GroupHeader (Group gr) /\ row = header_row ToUpper verbs (Group gr)) \/
  (k = Data gr /\ row = data_row Access_zero ra verbs gr).
Proof.
  unfold block. destruct prev as [q|]; [case_decide|]; set_solver.
Qed.

(** Every row of [grouped] is a spacer, the header of a group of the list, or
    the data row of a resource of the list. *)
Lemma elem_of_grouped (prev : option GroupResource) (grs : list GroupResource)
    (k : RowKind) (row : Row string) :
  (k, row) ∈ grouped Access_zero ToUpper ra verbs prev grs ->
  (k = Spacer /\ row = spacer_row) \/
  (exists gr, gr ∈ grs /\ k = GroupHeader (Group gr) /\ row = header_row ToUpper verbs (Group gr)) \/
  (exists gr, gr ∈ grs /\ k = Data gr /\ row = data_row Access_zero ra verbs gr).
Proof.
  revert prev. induction grs as [|gr grs IH]; intros prev; simpl; [set_solver|].
  rewrite elem_of_app. intros [Hb|Hg].
  - apply elem_of_block in Hb as [?|[?|?]]; [by left|right; left|right; right];
      exists gr; set_solver.
  - apply IH in Hg as [?|[(g & ? & ?)|(g & ? & ?)]]; [by left|right; left|right; right];
      exists g; set_solver.
Qed.


Lemma data_resources_grouped (prev : option GroupResource) (grs : list GroupResource) :
  data_resources (grouped Access_zero ToUpper ra verbs prev grs) = grs.
Proof.
  unfold data_resources. revert prev.
  induction grs as [|gr grs IH]; intros prev; simpl; [done|].
  rewrite omap_app, IH. unfold block.
  destruct prev as [q|]; [case_decide|]; done.
Qed.

(** After the first resource every header stands right behind a spacer, and
    every spacer right in front of a header. *)
Lemma grouped_header_after_spacer (q : GroupResource) (grs : list GroupResource)
    (i : nat) (g : string) :
  (grouped Access_zero ToUpper ra verbs (Some q) grs).*1 !! i = Some (GroupHeader g) ->
  exists j, i = S j /\ (grouped Access_zero ToUpper ra verbs (Some q) grs).*1 !! j = Some Spacer.
Proof.
  revert q i. induction grs as [|gr grs IH]; intros q i; simpl; [done|].
  unfold block. case_decide; simpl.
  - destruct i as [|i]; simpl; [done|]. intros Hi.
    apply IH in Hi as (j & -> & Hj). by exists (S j).
  - destruct i as [|[|[|i]]]; simpl; try done.
    + intros _. by exists 0.
    + intros Hi. apply IH in Hi as (j & -> & Hj). by exists (S (S (S j))).
Qed.

Lemma grouped_spacer_before_header (prev : option GroupResource)
    (grs : list GroupResource) (i : nat) :
  (grouped Access_zero ToUpper ra verbs prev grs).*1 !! i = Some Spacer ->
  exists g, (grouped Access_zero ToUpper ra verbs prev grs).*1 !! S i = Some (GroupHeader g).
Proof.
  revert prev i. induction grs as [|gr grs IH]; intros prev i; simpl; [done|].
  unfold block. destruct prev as [q|]; [case_decide|]; simpl.
  - destruct i as [|i]; simpl; [done|]. apply IH.
  - destruct i as [|[|[|i]]]; simpl; try done; [by eexists|apply IH].
  - destruct i as [|[|i]]; simpl; try done. apply IH.
Qed.

End GroupedFacts.

End TableFacts.

Lemma StronglySorted_weaken {A : Type} (R R' : relation A) (l : list A) :
  (forall x y, R x y -> R' x y) -> StronglySorted R l -> StronglySorted R' l.
Proof.
  intros HR. induction 1 as [|x l Hl IH Hall]; constructor; [done|].
  eapply Forall_impl; [exact Hall|]. intros y. apply HR.
Qed.

Lemma sorted_resources_pair_le (ra : ResourceAccess) :
  StronglySorted pair_le (sorted_resources ra).
Proof.
  eapply StronglySorted_weaken; [|apply sorted_resources_Sorted].
  intros x y. apply not_after_pair_le.
Qed.

(** ** The rows of [Table] in [resource.go] *)

(** X22: in [resource.go] the rows of [Table] are, resource by resource in
    sorted order, a group header in front of the very first resource and
    wherever the group
    differs from the group of the resource before, that header behind a
    spacer except in front of the first resource, and the data row. A table
    of a non-empty map starts with the header of its first group; every
    other header stands right behind a spacer and every spacer right in
    front of a header. The map [pods_example] with the verbs get and list
    gives 2 headers, 2 data rows and 1 spacer, the spacer between the
    groups. *)
Theorem Table_headers_at_group_changes (Access_zero : Access) (ToUpper : string -> string)
    (ra : ResourceAccess) (verbs : list string) :
  let rows := Table_rows Access_zero ToUpper ra verbs in
  rows = grouped Access_zero ToUpper ra verbs None (sorted_resources ra) /\
  Rows (Table Access_zero ToUpper ra verbs) = rows.*2 /\
  (ra <> ∅ ->
     exists gr rest, sorted_resources ra = gr :: rest /\
       rows = (GroupHeader (Group gr), header_row ToUpper verbs (Group gr))
                :: (Data gr, data_row Access_zero ra verbs gr)
                :: grouped Access_zero ToUpper ra verbs (Some gr) rest) /\
  (forall i g, rows.*1 !! S i = Some (GroupHeader g) -> rows.*1 !! i = Some Spacer) /\
  (forall i, rows.*1 !! i = Some Spacer ->
     exists g, rows.*1 !! S i = Some (GroupHeader g)) /\
  (let ex := Table_rows Access_zero ToUpper pods_example ["get"; "list"] in
   ex.*1 = [GroupHeader ""; Data {| Group := ""; Resource := "pods" |}; Spacer;
            GroupHeader "apps"; Data {| Group := "apps"; Resource := "pods" |}] /\
   count_rows is_header ex = 2 /\ count_rows is_data ex = 2 /\
   count_rows is_spacer ex = 1).
Proof.
  intros rows. subst rows. rewrite Table_grouped, Table_rows_grouped.
  split; [done|]. split; [done|]. split; [|split; [|split]].
  - intros Hne. destruct (sorted_resources ra) as [|gr rest] eqn:Hs.
    + by apply sorted_resources_nil in Hs.
    + by exists gr, rest.
  - intros i g. destruct (sorted_resources ra) as [|gr rest]; simpl; [done|].
    destruct i as [|i]; simpl; [done|]. intros Hi.
    apply grouped_header_after_spacer in Hi as (j & [= ->] & Hj). done.
  - intros i. apply grouped_spacer_before_header.
  - by vm_compute.
Qed.

(** C3: the resources of the data rows, read from top to bottom, are the
    parsed names of the map in the order of [less], which is the order of
    the pairs (group, resource) by bytes: of two data rows the upper one
    has the smaller or equal pair. *)
Theorem C3_data_rows_sorted (Access_zero : Access) (ToUpper : string -> string)
    (ra : ResourceAccess) (verbs : list string) :
  let resources := data_resources (Table_rows Access_zero ToUpper ra verbs) in
  resources = sorted_resources ra /\
  resources ≡ₚ map ParseGroupResource (names_of ra) /\
  StronglySorted pair_le resources /\
  (forall i j x y, i < j -> resources !! i = Some x -> resources !! j = Some y ->
     pair_le x y) /\
  (forall gr row, (Data gr, row) ∈ Table_rows Access_zero ToUpper ra verbs ->
     Intro row = [Resource gr] /\
     exists name, is_Some (ra !! name) /\ ParseGroupResource name = gr).
Proof.
  intros resources. subst resources.
  rewrite Table_rows_grouped, data_resources_grouped.
  pose proof (sorted_resources_pair_le ra) as Hs.
  split; [done|]. split; [apply sorted_resources_Permutation|].
  split; [done|]. split.
  - intros i j x y Hij Hi Hj.
    apply list_elem_of_split_length in Hi as (l1 & l2 & Heq & Hlen).
    rewrite Heq in Hs, Hj. apply StronglySorted_app_1_r in Hs.
    rewrite lookup_app_r in Hj by lia.
    destruct (j - length l1) as [|k] eqn:Hk; [lia|]. simpl in Hj.
    apply StronglySorted_cons in Hs as [Hall _].
    rewrite Forall_forall in Hall. apply Hall. by eapply list_elem_of_lookup_2.
  - intros gr row Hin. apply elem_of_grouped in Hin as [[? _]|[(g & _ & ? & _)|(g & Hg & [= <-] & ->)]];
      try done.
    split; [done|]. by apply elem_of_sorted_resources.
Qed.

(** The empty group is the least key of the sort. *)
Lemma less_empty_group (x y : GroupResource) :
  Group x = "" -> Group y <> "" -> less x y = true.
Proof.
  destruct x as [gx rx], y as [gy ry]. cbn [Group]. intros -> Hy.
  unfold less. cbn [Group Resource]. by destruct gy.
Qed.

Lemma sorted_resources_empty_group_first (ra : ResourceAccess) (x : GroupResource) :
  x ∈ sorted_resources ra -> Group x = "" ->
  exists gr rest, sorted_resources ra = gr :: rest /\ Group gr = "".
Proof.
  intros Hx Hgx. pose proof (sorted_resources_Sorted ra) as Hs.
  destruct (sorted_resources ra) as [|gr rest]; [by apply elem_of_nil in Hx|].
  exists gr, rest. split; [done|].
  destruct (decide (Group gr = "")) as [|Hne]; [done|].
  apply StronglySorted_cons in Hs as [Hall _]. rewrite Forall_forall in Hall.
  apply elem_of_cons in Hx as [->|Hx]; [done|].
  specialize (Hall x Hx). unfold not_after in Hall.
  by rewrite less_empty_group in Hall.
Qed.

Lemma sorted_resources_empty_group_before (ra : ResourceAccess) (i j : nat)
    (x y : GroupResource) :
  sorted_resources ra !! i = Some x -> sorted_resources ra !! j = Some y ->
  Group x = "" -> Group y <> "" -> i < j.
Proof.
  intros Hi Hj Hx Hy. destruct (decide (i < j)) as [|Hge]; [done|].
  exfalso. pose proof (less_empty_group x y Hx Hy) as Hless.
  destruct (decide (i = j)) as [->|Hne]; [by simplify_eq|].
  assert (j < i) as Hji by lia.
  pose proof (sorted_resources_Sorted ra) as Hs.
  apply list_elem_of_split_length in Hj as (l1 & l2 & Heq & Hlen).
  rewrite Heq in Hs, Hi. apply StronglySorted_app_1_r in Hs.
  rewrite lookup_app_r in Hi by lia.
  destruct (i - length l1) as [|k] eqn:Hk; [lia|]. simpl in Hi.
  apply StronglySorted_cons in Hs as [Hall _]. rewrite Forall_forall in Hall.
  specialize (Hall x (list_elem_of_lookup_2 _ _ _ Hi)).
  unfold not_after in Hall. by rewrite Hless in Hall.
Qed.

Lemma display_label_not_colon (g : string) : display_group g +:+ ":" <> ":".
Proof. destruct g as [|a [|b g]]; cbv; discriminate. Qed.

(** X23: in [resource.go], when the map has a resource of the empty group,
    the sort takes the
    empty string itself as the key of that group, so these resources come
    first, in front of every resource of another group; the first row of the
    table is then the header of the empty group, and its label is ["core:"].
    The label of a header is the group, or ["core"] for the empty group,
    with a colon: it is never [":"]. *)
Theorem Table_empty_group_sorts_first_and_shows_core
    (Access_zero : Access) (ToUpper : string -> string)
    (ra : ResourceAccess) (verbs : list string) (name : string) :
  is_Some (ra !! name) -> Group (ParseGroupResource name) = "" ->
  let rows := Table_rows Access_zero ToUpper ra verbs in
  (exists gr rest, sorted_resources ra = gr :: rest /\ Group gr = "" /\
     rows = (GroupHeader "", {| Intro := "core:" :: map ToUpper verbs;
                                Entries := [None_] |})
              :: (Data gr, data_row Access_zero ra verbs gr)
              :: grouped Access_zero ToUpper ra verbs (Some gr) rest) /\
  (forall x y, Group x = "" -> Group y <> "" -> less x y = true) /\
  (forall i j x y,
     data_resources rows !! i = Some x -> data_resources rows !! j = Some y ->
     Group x = "" -> Group y <> "" -> i < j) /\
  (forall g row, (GroupHeader g, row) ∈ rows ->
     Intro row = (display_group g +:+ ":") :: map ToUpper verbs /\
     display_group g +:+ ":" <> ":" /\
     (g = "" -> Intro row = "core:" :: map ToUpper verbs)).
Proof.
  intros Hname Hgroup rows. subst rows.
  rewrite Table_rows_grouped, data_resources_grouped.
  split; [|split; [|split]].
  - destruct (sorted_resources_empty_group_first ra (ParseGroupResource name))
      as (gr & rest & Hs & Hg); [|done|].
    { apply elem_of_sorted_resources. by exists name. }
    exists gr, rest. rewrite Hs. simpl. unfold header_row. by rewrite Hg.
  - apply less_empty_group.
  - intros i j x y Hi Hj Hx Hy. destruct (decide (i < j)) as [|Hge]; [done|].
    exfalso. pose proof (less_empty_group x y Hx Hy) as Hless.
    destruct (decide (i = j)) as [->|Hne]; [by simplify_eq|].
    assert (j < i) as Hji by lia.
    pose proof (sorted_resources_Sorted ra) as Hs.
    apply list_elem_of_split_length in Hj as (l1 & l2 & Heq & Hlen).
    rewrite Heq in Hs, Hi. apply StronglySorted_app_1_r in Hs.
    rewrite lookup_app_r in Hi by lia.
    destruct (i - length l1) as [|k] eqn:Hk; [lia|]. simpl in Hi.
    apply StronglySorted_cons in Hs as [Hall _]. rewrite Forall_forall in Hall.
    specialize (Hall x (list_elem_of_lookup_2 _ _ _ Hi)).
    unfold not_after in Hall. by rewrite Hless in Hall.
  - intros g row Hin.
    apply elem_of_grouped in Hin as [[? _]|[(gr & _ & [= ->] & ->)|(gr & _ & ? & _)]];
      try done.
    split; [done|]. split; [apply display_label_not_colon|]. by intros ->.
Qed.

(** [pods_example], whose name pods is of the empty group. *)
Lemma Table_empty_group_witness :
  exists gr rest, sorted_resources pods_example = gr :: rest /\ Group gr = "" /\
    Table_rows NotApplicable ascii_ToUpper pods_example ["get"; "list"] =
      (GroupHeader "", {| Intro := "core:" :: map ascii_ToUpper ["get"; "list"];
                          Entries := [None_] |})
        :: (Data gr, data_row NotApplicable pods_example ["get"; "list"] gr)
        :: grouped NotApplicable ascii_ToUpper pods_example ["get"; "list"] (Some gr) rest.
Proof.
  apply (Table_empty_group_sorts_first_and_shows_core
           NotApplicable ascii_ToUpper pods_example ["get"; "list"] "pods").
  - vm_compute. eexists. reflexivity.
  - reflexivity.
Defined.

(** C10 (counterexample): with the one verb get every row of the table of
    [pods_example] has one outcome: the rows do not differ in their number
    of outcomes. *)
Lemma C10_one_verb_rows_all_alike :
  ~ ragged (Table NotApplicable ascii_ToUpper pods_example ["get"]) /\
  map (fun r => length (Entries r))
      (Rows (Table NotApplicable ascii_ToUpper pods_example ["get"]))
    = [1; 1; 1; 1; 1].
Proof.
  split; [|by vm_compute].
  intros (r1 & r2 & H1 & H2 & Hne). apply Hne.
  assert (Hall : Forall (fun r : Row string => length (Entries r) = 1)
                   (Rows (Table NotApplicable ascii_ToUpper pods_example ["get"]))).
  { vm_compute. repeat constructor. }
  rewrite Forall_forall in Hall. by rewrite (Hall r1 H1), (Hall r2 H2).
Qed.

(** In [resource.go] a spacer and a group header carry the one outcome [None],
    however many verbs there are, and a data row carries one outcome for
    each verb. So the rows of a table differ in their number of outcomes
    exactly when the map is not empty and the verbs are not exactly one. *)
Lemma Table_outcomes_per_row (Access_zero : Access) (ToUpper : string -> string)
    (ra : ResourceAccess) (verbs : list string) :
  let rows := Table_rows Access_zero ToUpper ra verbs in
  (forall k row, (k, row) ∈ rows ->
     match k with
     | Spacer | GroupHeader _ => Entries row = [None_]
     | Data _ => length (Entries row) = length verbs
     end) /\
  (ragged (Table Access_zero ToUpper ra verbs) <-> ra <> ∅ /\ length verbs <> 1).
Proof.
  intros rows. subst rows. unfold ragged. rewrite Table_grouped, Table_rows_grouped.
  assert (Hkind : forall k row,
            (k, row) ∈ grouped Access_zero ToUpper ra verbs None (sorted_resources ra) ->
            match k with
            | Spacer | GroupHeader _ => Entries row = [None_]
            | Data _ => length (Entries row) = length verbs
            end).
  { intros k row Hin.
    apply elem_of_grouped in Hin as [[-> ->]|[(gr & _ & -> & ->)|(gr & _ & -> & ->)]];
      try done.
    simpl. by rewrite length_map. }
  split; [done|]. simpl. split.
  - intros (r1 & r2 & H1 & H2 & Hne). split.
    + intros ->. rewrite sorted_resources_empty in H1. by apply elem_of_nil in H1.
    + intros Hlen. apply Hne.
      assert (Hone : forall r,
                r ∈ (grouped Access_zero ToUpper ra verbs None (sorted_resources ra)).*2 ->
                length (Entries r) = 1).
      { intros r Hr. apply list_elem_of_fmap in Hr as ([k row] & -> & Hin). simpl.
        specialize (Hkind k row Hin). destruct k; by rewrite Hkind. }
      by rewrite (Hone r1 H1), (Hone r2 H2).
  - intros [Hne Hlen]. destruct (sorted_resources ra) as [|gr rest] eqn:Hs.
    { by apply sorted_resources_nil in Hs. }
    exists (header_row ToUpper verbs (Group gr)), (data_row Access_zero ra verbs gr).
    simpl. split; [by left|]. split; [right; by left|].
    simpl. rewrite length_map. lia.
Qed.

(** ** Names and their parsed form *)

Lemma append_cons (x : ascii) (a b : string) :
  String.String x a +:+ b = String.String x (a +:+ b).
Proof. reflexivity. Qed.

Lemma append_assoc (a b c : string) : (a +:+ b) +:+ c = a +:+ (b +:+ c).
Proof. induction a as [|x a IH]; [done|]. by rewrite !append_cons, IH. Qed.

Lemma append_nil_r (a : string) : a +:+ "" = a.
Proof. induction a as [|x a IH]; [done|]. by rewrite append_cons, IH. Qed.

Lemma length_append (a b : string) :
  String.length (a +:+ b) = String.length a + String.length b.
Proof. induction a as [|x a IH]; [done|]. rewrite append_cons. simpl. by rewrite IH. Qed.

Lemma Cut_dot_found (s before after : string) :
  Cut_dot s = (before, after, true) -> s = before +:+ "." +:+ after.
Proof.
  revert before. induction s as [|c s IH]; intros before; simpl; [done|].
  destruct (Ascii.eqb_spec c "."%char) as [->|Hc].
  - by intros [= <- <-].
  - destruct (Cut_dot s) as [[b a] f]. intros [= <- <- ->].
    by rewrite append_cons, <- (IH b eq_refl).
Qed.

Lemma Cut_dot_not_found (s before after : string) :
  Cut_dot s = (before, after, false) -> before = s /\ after = "".
Proof.
  revert before. induction s as [|c s IH]; intros before; simpl.
  - by intros [= <- <-].
  - destruct (Ascii.eqb c "."%char); [done|].
    destruct (Cut_dot s) as [[b a] f]. intros [= <- <- ->].
    destruct (IH b eq_refl) as [-> ->]. done.
Qed.

(** The names that are not canonical are those whose first dot is their last
    byte: ["pods."] is parsed as the resource pods of the empty group, whose
    string is ["pods"]. *)
Lemma canonical_iff (name : string) :
  canonical name <-> ~ exists before, Cut_dot name = (before, "", true).
Proof.
  unfold canonical, ParseGroupResource, GroupResource_String.
  destruct (Cut_dot name) as [[b a] [|]] eqn:Hcut; cbn [Group Resource].
  - apply Cut_dot_found in Hcut. destruct a as [|c a]; simpl.
    + split; [|intros []; by eexists].
      intros Hb. rewrite Hcut in Hb at 1.
      apply (f_equal String.length) in Hb. rewrite length_append in Hb.
      simpl in Hb. lia.
    + split; [|done]. intros _ (b' & Hb'). by simplify_eq.
  - split; [|done]. intros _ (b' & Hb'). by simplify_eq.
Qed.

(** Whatever the zero value of [Access]: the map stores [Allowed] for get on
    ["pods."], and both data rows of the table show [Down], the outcome of
    ["pods"]. *)
Lemma trailing_dot_rows (Access_zero : Access) (ToUpper : string -> string) :
  Table_rows Access_zero ToUpper trailing_dot_example ["get"] =
    [ (GroupHeader "", {| Intro := ["core:"; ToUpper "get"]; Entries := [None_] |});
      (Data {| Group := ""; Resource := "pods" |},
       {| Intro := ["pods"]; Entries := [Down] |});
      (Data {| Group := ""; Resource := "pods" |},
       {| Intro := ["pods"]; Entries := [Down] |}) ].
Proof. by vm_compute. Qed.

Lemma trailing_dot_cells_not_stored (Access_zero : Access) (ToUpper : string -> string) :
  ~ cells_are_stored Access_zero ToUpper trailing_dot_example ["get"].
Proof.
  intros Hc.
  destruct (Hc "pods." {[ "get" := Allowed ]}
               {| Intro := ["pods"]; Entries := [Down] |}) as [_ Hcell].
  - by vm_compute.
  - rewrite trailing_dot_rows. change (ParseGroupResource "pods.")
      with {| Group := ""; Resource := "pods" |}. set_solver.
  - specialize (Hcell 0 "get" eq_refl). vm_compute in Hcell. discriminate.
Qed.



(** ** The order of [range] over the map *)

(** X18: [Table] is the same in whatever order [range ra] yields the names. *)
Lemma Table_range_any_order (Access_zero : Access) (ToUpper : string -> string)
    (ra : ResourceAccess) (verbs : list string) (names : list string) :
  names ≡ₚ names_of ra ->
  Table_build Access_zero ToUpper names ra verbs
  = Table_build Access_zero ToUpper (names_of ra) ra verbs.
Proof.
  intros Hp. unfold Table_build. rewrite !fold_left_snoc. simpl.
  rewrite (sort_Slice_any_order less less_asym
             (map ParseGroupResource names) (map ParseGroupResource (names_of ra)));
    [done|].
  by apply Permutation_map.
Qed.

(** ** Rendering a table without rows *)

Lemma Table_Render_no_rows {I : Type} `{Renders I} (p : printer.Table I)
    (t : bool) (f : string) :
  Rows p = [] ->
  Table_Render p t f =
    (w ← Render_headers {| IsTerminal := t; OutputFormat := f |} (Headers p) "";
     Ok (w +:+ newline)).
Proof. intros Hrows. unfold Table_Render. by rewrite Hrows. Qed.

Lemma Render_headers_text_from (env : Env) (cells : list string) (i : nat) (w : string) :
  range_from (fun i (h : Renderable) w =>
                s ← Render h env;
                if Nat.eqb i 0 then Ok (w +:+ s) else Ok (w +:+ tab +:+ s))
             (S i) (map (fun s => OfText (mkText s)) cells) w
  = Ok (w +:+ tabbed cells).
Proof.
  revert i w. induction cells as [|s cells IH]; intros i w; simpl.
  - by rewrite append_nil_r.
  - rewrite IH. by rewrite !append_assoc.
Qed.

Lemma table_headers_map (ToUpper : string -> string) (verbs : list string) :
  result_cut.table_headers ToUpper verbs
  = OfText (mkText "NAME") :: map (fun s => OfText (mkText s)) (map ToUpper verbs).
Proof.
  unfold result_cut.table_headers. rewrite fold_left_snoc. simpl.
  by rewrite map_map.
Qed.

(** C9: for the empty map [Table] gives the table without headers and
    without rows: no group header, no spacer, no data row. Rendering a table
    without rows writes the header line and nothing else; for this table
    that line is empty. The revision with the column headers gives, for the
    empty map, the table of its headers alone, rendered as the one line
    NAME and the verbs in upper case. *)
Theorem C9_empty_map_gives_no_rows (Access_zero : Access) (ToUpper : string -> string)
    (verbs : list string) :
  Table Access_zero ToUpper ∅ verbs = {| Headers := []; Rows := [] |} /\
  Table_rows Access_zero ToUpper ∅ verbs = [] /\
  (forall f, count_rows f (Table_rows Access_zero ToUpper ∅ verbs) = 0) /\
  (forall (I : Type) (R : Renders I) (p : printer.Table I) (t : bool) (f : string),
     Rows p = [] ->
     Table_Render p t f =
       (w ← Render_headers {| IsTerminal := t; OutputFormat := f |} (Headers p) "";
        Ok (w +:+ newline))) /\
  (forall (R : Renders string) (t : bool) (f : string),
     Table_Render (Table Access_zero ToUpper ∅ verbs) t f = Ok newline) /\
  result_cut.Table Access_zero ToUpper ∅ verbs
    = {| Headers := result_cut.table_headers ToUpper verbs; Rows := [] |} /\
  result_cut.Table_rows Access_zero ToUpper ∅ verbs = [] /\
  (forall (t : bool) (f : string),
     Table_Render (result_cut.Table Access_zero ToUpper ∅ verbs) t f
     = Ok ("NAME" +:+ tabbed (map ToUpper verbs) +:+ newline)).
Proof.
  assert (Hcut : result_cut.Table Access_zero ToUpper ∅ verbs
                 = {| Headers := result_cut.table_headers ToUpper verbs; Rows := [] |}).
  { unfold result_cut.Table, result_cut.Table_build. by rewrite names_of_empty. }
  rewrite Table_grouped, Table_rows_grouped, sorted_resources_empty. simpl.
  split; [done|]. split; [done|]. split; [done|].
  split; [intros I R p t f; apply Table_Render_no_rows|].
  split; [done|]. split; [done|]. split.
  - unfold result_cut.Table_rows, result_cut.Table_build. by rewrite names_of_empty.
  - intros t f. rewrite Hcut, Table_Render_no_rows by done. simpl.
    rewrite table_headers_map. unfold Render_headers, range. simpl.
    rewrite Render_headers_text_from. simpl. by rewrite append_assoc.
Qed.

(** ** The revision that cuts the names *)

Lemma cut_Table_body_block (Access_zero : Access) (ra : ResourceAccess)
    (verbs : list string) (name : string) (st : result_cut.Build) :
  let st' := result_cut.Table_body Access_zero ra verbs name st in
  Headers (result_cut.p st') = Headers (result_cut.p st) /\
  Rows (result_cut.p st') =
    (Rows (result_cut.p st)
     ++ (cut_block Access_zero ra verbs (result_cut.lastGroup st) name).*2)%list /\
  result_cut.kinds st' =
    (result_cut.kinds st
     ++ (cut_block Access_zero ra verbs (result_cut.lastGroup st) name).*1)%list /\
  result_cut.lastGroup st' = cut_group name.
Proof.
  unfold result_cut.Table_body, cut_block, cut_data_row, cut_group, cut_resource.
  unfold row_outcomes. rewrite fold_left_snoc.
  destruct (Cut_dot name) as [[resource group] found]. simpl.
  destruct (String.eqb_spec group (result_cut.lastGroup st)) as [Heq|Hne]; simpl.
  - rewrite decide_True by done. by repeat split.
  - rewrite decide_False by done. simpl. rewrite <- !app_assoc. by repeat split.
Qed.

Lemma cut_Table_loop_grouped (Access_zero : Access) (ra : ResourceAccess)
    (verbs : list string) (names : list string) :
  forall (i : nat) (st : result_cut.Build),
    let st' := for_range_from
                 (fun _ name st => result_cut.Table_body Access_zero ra verbs name st)
                 i names st in
    Headers (result_cut.p st') = Headers (result_cut.p st) /\
    Rows (result_cut.p st') =
      (Rows (result_cut.p st)
       ++ (cut_grouped Access_zero ra verbs (result_cut.lastGroup st) names).*2)%list /\
    result_cut.kinds st' =
      (result_cut.kinds st
       ++ (cut_grouped Access_zero ra verbs (result_cut.lastGroup st) names).*1)%list.
Proof.
  induction names as [|name names IH]; intros i st; simpl.
  - by rewrite !app_nil_r.
  - destruct (cut_Table_body_block Access_zero ra verbs name st) as (Hh & Hr & Hk & Hg).
    destruct (IH (S i) (result_cut.Table_body Access_zero ra verbs name st))
      as (Hh' & Hr' & Hk').
    rewrite Hh', Hr', Hk', Hh, Hr, Hk, Hg, !fmap_app, !app_assoc. done.
Qed.

(** The rows of this revision: the blocks of the sorted names, with the
    empty string as the group before the first name. *)
Lemma cut_Table_rows_grouped (Access_zero : Access) (ToUpper : string -> string)
    (ra : ResourceAccess) (verbs : list string) :
  result_cut.Table_rows Access_zero ToUpper ra verbs
  = cut_grouped Access_zero ra verbs "" (cut_sorted_names ra).
Proof.
  unfold result_cut.Table_rows, result_cut.Table_build, for_range.
  rewrite fold_left_snoc, map_id. simpl.
  destruct (cut_Table_loop_grouped Access_zero ra verbs (cut_sorted_names ra) 0
              {| result_cut.p := TableWithHeaders (result_cut.table_headers ToUpper verbs);
                 result_cut.kinds := []; result_cut.lastGroup := "" |})
    as (_ & Hr & Hk).
  unfold cut_sorted_names in *. rewrite Hr, Hk. simpl. apply zip_fst_snd.
Qed.

Lemma cut_data_row_in_grouped (Access_zero : Access) (ra : ResourceAccess)
    (verbs : list string) (last : string) (names : list string) (name : string) :
  name ∈ names ->
  (result_cut.Data name, cut_data_row Access_zero ra verbs name)
    ∈ cut_grouped Access_zero ra verbs last names.
Proof.
  revert last. induction names as [|x names IH]; intros last; simpl; [set_solver|].
  rewrite elem_of_cons, elem_of_app. intros [->|Hin].
  - left. unfold cut_block. set_solver.
  - right. by apply IH.
Qed.

Lemma cut_elem_of_grouped (Access_zero : Access) (ra : ResourceAccess)
    (verbs : list string) (last : string) (names : list string)
    (k : result_cut.RowKind) (row : Row Renderable) :
  (k, row) ∈ cut_grouped Access_zero ra verbs last names ->
  (k = result_cut.Spacer /\ row = cut_spacer_row) \/
  (exists name, name ∈ names /\ k = result_cut.GroupHeader (cut_group name) /\
                row = cut_header_row (cut_group name)) \/
  (exists name, name ∈ names /\ k = result_cut.Data name /\
                row = cut_data_row Access_zero ra verbs name).
Proof.
  revert last. induction names as [|x names IH]; intros last; simpl; [set_solver|].
  rewrite elem_of_app. intros [Hb|Hg].
  - unfold cut_block in Hb. case_decide; set_solver.
  - apply IH in Hg as [?|[(n & ? & ?)|(n & ? & ?)]]; [by left|right; left|right; right];
      exists n; set_solver.
Qed.

(** X17: In this revision the row of every name of the map shows what the map
    stores for that name: it reads [ra[name]]. Its spacers and headers carry
    the one outcome [None] as well. *)
Theorem cut_rows_read_their_own_name (Access_zero : Access) (ToUpper : string -> string)
    (ra : ResourceAccess) (verbs : list string) :
  let rows := result_cut.Table_rows Access_zero ToUpper ra verbs in
  (forall name res, ra !! name = Some res ->
     exists row, (result_cut.Data name, row) ∈ rows /\
       Entries row = map (fun v => outcome_of (default Access_zero (res !! v))) verbs) /\
  (forall k row, (k, row) ∈ rows ->
     match k with
     | result_cut.Data name =>
         is_Some (ra !! name) /\ length (Entries row) = length verbs /\
         Entries row =
           map (fun v => outcome_of (default Access_zero (default ∅ (ra !! name) !! v))) verbs
     | _ => Entries row = [None_]
     end).
Proof.
  intros rows. subst rows. rewrite cut_Table_rows_grouped. split.
  - intros name res Hres. exists (cut_data_row Access_zero ra verbs name). split.
    + apply cut_data_row_in_grouped. unfold cut_sorted_names.
      rewrite sort_Slice_Permutation. apply elem_of_names_of. by exists res.
    + simpl. unfold index, index_ra. by rewrite Hres.
  - intros k row Hin.
    apply cut_elem_of_grouped in Hin
      as [[-> ->]|[(n & _ & -> & ->)|(n & Hn & -> & ->)]]; try done.
    unfold cut_sorted_names in Hn. rewrite sort_Slice_Permutation in Hn.
    apply elem_of_names_of in Hn. simpl. by rewrite length_map.
Qed.

(** In this revision the first group gets a header, behind a spacer, only
    when it is not the empty group: [pods_example] gives 1 header, 1 spacer
    and 2 data rows, and a map of the group apps alone starts with a
    spacer. *)
Theorem cut_rows_of_pods_example (Access_zero : Access) (ToUpper : string -> string) :
  let kinds := (result_cut.Table_rows Access_zero ToUpper pods_example ["get"; "list"]).*1 in
  kinds = [result_cut.Data "pods"; result_cut.Spacer;
           result_cut.GroupHeader "apps"; result_cut.Data "pods.apps"] /\
  length (List.filter cut_is_header kinds) = 1 /\
  length (List.filter cut_is_spacer kinds) = 1 /\
  length (List.filter cut_is_data kinds) = 2 /\
  (result_cut.Table_rows Access_zero ToUpper
     {[ "pods.apps" := {[ "get" := Allowed ]} ]} ["get"]).*1
    = [result_cut.Spacer; result_cut.GroupHeader "apps"; result_cut.Data "pods.apps"].
Proof. by vm_compute. Qed.

(** A bold header is framed on a terminal in every format: the table of this
    revision for [pods_example], rendered as ["ascii-table"] on a terminal,
    holds the byte ESC, and differs from its rendering off a terminal. *)
Theorem cut_bold_header_escapes_in_ascii :
  let p := result_cut.Table NotApplicable ascii_ToUpper pods_example ["get"; "list"] in
  (exists s, Table_Render p true "ascii-table" = Ok s /\ has_escape s = true) /\
  (exists s, Table_Render p false "ascii-table" = Ok s /\ has_escape s = false) /\
  Table_Render p true "ascii-table" <> Table_Render p false "ascii-table".
Proof.
  split; [|split].
  - eexists. split; [by vm_compute|]. by vm_compute.
  - eexists. split; [by vm_compute|]. by vm_compute.
  - by vm_compute.
Qed.

(** The names of [pods_example] in the other order. *)
Lemma Table_range_any_order_witness :
  Table_build NotApplicable ascii_ToUpper ["pods"; "pods.apps"] pods_example ["get"; "list"]
  = Table_build NotApplicable ascii_ToUpper (names_of pods_example) pods_example ["get"; "list"].
Proof.
  apply (Table_range_any_order NotApplicable ascii_ToUpper pods_example ["get"; "list"]
           ["pods"; "pods.apps"]).
  vm_compute. apply perm_swap.
Defined.

(** * Further properties of the printer *)

(** ** The text of a table, line by line *)

(** The renderings of the cells of a list, in order; the first panic wins. *)
Fixpoint render_all {A : Type} (f : A -> result string) (l : list A)
    : result (list string) :=
  match l with
  | [] => Ok []
  | x :: l' => s ← f x; ss ← render_all f l'; Ok (s :: ss)
  end.

(** Cells joined by tabs. *)
Definition join_tabs (cells : list string) : string :=
  match cells with
  | [] => ""
  | c :: cs => c +:+ tabbed cs
  end.

Definition concat_lines (lines : list string) : string :=
  fold_right String.append "" lines.

(** The line of a row: its intro cells joined by tabs, each outcome behind
    a tab, and a newline. *)
Definition row_line {I : Type} `{Renders I} (env : Env) (row : Row I) : result string :=
  cells ← render_all (fun c => Render c env) (Intro row);
  outs ← render_all (fun o => Outcome_Render o env) (Entries row);
  Ok (join_tabs cells +:+ tabbed outs +:+ newline).

Definition table_text {I : Type} `{Renders I} (env : Env) (p : printer.Table I)
    : result string :=
  hs ← render_all (fun h => Render h env) (Headers p);
  lines ← render_all (row_line env) (Rows p);
  Ok (join_tabs hs +:+ newline +:+ concat_lines lines).

Lemma render_all_app {A : Type} (f : A -> result string) (l1 l2 : list A) :
  render_all f (l1 ++ l2) =
    (ss1 ← render_all f l1; ss2 ← render_all f l2; Ok (ss1 ++ ss2)%list).
Proof.
  induction l1 as [|x l1 IH]; simpl.
  - by destruct (render_all f l2).
  - destruct (f x) as [s|]; simpl; [|done]. rewrite IH.
    destruct (render_all f l1); simpl; [|done]. by destruct (render_all f l2).
Qed.

Lemma tabbed_app (l1 l2 : list string) : tabbed (l1 ++ l2) = tabbed l1 +:+ tabbed l2.
Proof.
  induction l1 as [|s l1 IH]; simpl; [done|]. by rewrite IH, !append_assoc.
Qed.

Lemma concat_lines_app (l1 l2 : list string) :
  concat_lines (l1 ++ l2) = concat_lines l1 +:+ concat_lines l2.
Proof.
  induction l1 as [|s l1 IH]; simpl; [done|]. by rewrite IH, append_assoc.
Qed.

(** A loop that appends to [w], behind a tab, what [f] gives for each
    element. *)
Lemma range_from_tabbed {A : Type} (f : A -> result string)
    (body : nat -> A -> string -> result string) (l : list A) :
  forall (i : nat) (w : string),
    (forall j x w, i <= j -> body j x w = (s ← f x; Ok (w +:+ tab +:+ s))) ->
    range_from body i l w = (ss ← render_all f l; Ok (w +:+ tabbed ss)).
Proof.
  induction l as [|x l IH]; intros i w Hbody; simpl.
  - by rewrite append_nil_r.
  - rewrite Hbody by done. destruct (f x) as [s|]; simpl; [|done].
    rewrite (IH (S i)) by (intros; apply Hbody; lia).
    destruct (render_all f l); simpl; [|done]. by rewrite !append_assoc.
Qed.

(** A loop that appends what [f] gives for each element, behind a tab except
    for the first. *)
Lemma range_join_tabs {A : Type} (f : A -> result string)
    (body : nat -> A -> string -> result string) (l : list A) (w : string) :
  (forall x w, body 0 x w = (s ← f x; Ok (w +:+ s))) ->
  (forall j x w, 1 <= j -> body j x w = (s ← f x; Ok (w +:+ tab +:+ s))) ->
  range body l w = (ss ← render_all f l; Ok (w +:+ join_tabs ss)).
Proof.
  intros H0 H1. unfold range. destruct l as [|x l]; simpl.
  - by rewrite append_nil_r.
  - rewrite H0. destruct (f x) as [s|]; simpl; [|done].
    rewrite (range_from_tabbed f body l 1) by done.
    destruct (render_all f l); simpl; [|done]. by rewrite append_assoc.
Qed.

Section RenderLines.
Context {I : Type} `{Renders I}.

Lemma Render_headers_join (env : Env) (hs : list I) (w : string) :
  Render_headers env hs w =
    (ss ← render_all (fun h => Render h env) hs; Ok (w +:+ join_tabs ss)).
Proof.
  unfold Render_headers. apply range_join_tabs.
  - intros x w'. simpl. by destruct (Render x env).
  - intros j x w' Hj. destruct j as [|j]; [lia|]. simpl. by destruct (Render x env).
Qed.

Lemma Render_intro_join (env : Env) (intro : list I) (w : string) :
  Render_intro env intro w =
    (ss ← render_all (fun c => Render c env) intro; Ok (w +:+ join_tabs ss)).
Proof.
  unfold Render_intro. apply range_join_tabs.
  - intros x w'. simpl. by destruct (Render x env).
  - intros j x w' Hj. destruct j as [|j]; [lia|]. simpl.
    destruct (Render x env); simpl; [|done]. by rewrite append_assoc.
Qed.

Lemma Render_entries_tabbed (env : Env) (entries : list Outcome) (w : string) :
  Render_entries env entries w =
    (ss ← render_all (fun o => Outcome_Render o env) entries; Ok (w +:+ tabbed ss)).
Proof.
  unfold Render_entries, range. apply range_from_tabbed. intros j x w' _. done.
Qed.

Lemma Render_row_line (env : Env) (row : Row I) (w : string) :
  Render_row env row w = (l ← row_line env row; Ok (w +:+ l)).
Proof.
  unfold Render_row, row_line. rewrite Render_intro_join.
  destruct (render_all _ (Intro row)) as [cells|]; simpl; [|done].
  rewrite Render_entries_tabbed.
  destruct (render_all _ (Entries row)) as [outs|]; simpl; [|done].
  by rewrite !append_assoc.
Qed.

Lemma range_rows_lines (env : Env) (rows : list (Row I)) :
  forall (i : nat) (w : string),
    range_from (fun _ row w => Render_row env row w) i rows w =
      (lines ← render_all (row_line env) rows; Ok (w +:+ concat_lines lines)).
Proof.
  induction rows as [|row rows IH]; intros i w; simpl.
  - by rewrite append_nil_r.
  - rewrite Render_row_line. destruct (row_line env row) as [l|]; simpl; [|done].
    rewrite IH. destruct (render_all _ rows); simpl; [|done]. by rewrite append_assoc.
Qed.

(** What [Render] writes is the header line and then the line of each row,
    in the order of the rows; it panics where the first cell in that order
    panics. *)
Lemma Table_Render_table_text (p : printer.Table I) (t : bool) (f : string) :
  Table_Render p t f = table_text {| IsTerminal := t; OutputFormat := f |} p.
Proof.
  unfold Table_Render, table_text. rewrite Render_headers_join.
  destruct (render_all _ (Headers p)) as [hs|]; simpl; [|done].
  unfold range. rewrite range_rows_lines.
  destruct (render_all _ (Rows p)) as [lines|]; simpl; [|done].
  by rewrite !append_assoc.
Qed.

End RenderLines.

(** ** Adding a row and rendering *)

(** X2: [AddRow] keeps the headers and the rows added before and puts the new
    row last; the text of the table grows by the line of the new row, and a
    panic of the table before stays one. *)
Theorem Render_after_AddRow {I : Type} `{Renders I} (p : printer.Table I)
    (intro : list I) (outcomes : list Outcome) (t : bool) (f : string) :
  let env := {| IsTerminal := t; OutputFormat := f |} in
  let row := {| Intro := intro; Entries := outcomes |} in
  Headers (AddRow p intro outcomes) = Headers p /\
  Rows (AddRow p intro outcomes) = (Rows p ++ [row])%list /\
  Table_Render (AddRow p intro outcomes) t f =
    (w ← Table_Render p t f; l ← row_line env row; Ok (w +:+ l)).
Proof.
  intros env row. split; [done|]. split; [done|].
  rewrite !Table_Render_table_text. unfold table_text, AddRow. simpl.
  destruct (render_all _ (Headers p)) as [hs|]; simpl; [|done].
  rewrite render_all_app.
  destruct (render_all _ (Rows p)) as [lines|]; simpl; [|done].
  fold row env. destruct (row_line env row) as [l|]; simpl; [|done].
  rewrite concat_lines_app. simpl. by rewrite append_nil_r, !append_assoc.
Qed.

(** ** The bytes of the text *)

Fixpoint count_byte (b : ascii) (s : string) : nat :=
  match s with
  | EmptyString => 0
  | String c s' => (if Ascii.eqb c b then 1 else 0) + count_byte b s'
  end.

Definition TAB : ascii := ascii_of_nat 9.
Definition NEWLINE : ascii := ascii_of_nat 10.
Definition XFF : ascii := ascii_of_nat 255.

Lemma count_byte_app (b : ascii) (s1 s2 : string) :
  count_byte b (s1 +:+ s2) = count_byte b s1 + count_byte b s2.
Proof.
  induction s1 as [|c s1 IH]; [done|]. rewrite append_cons. simpl. rewrite IH. lia.
Qed.

Lemma has_escape_count (s : string) : has_escape s = false <-> count_byte ESC s = 0.
Proof.
  induction s as [|c s IH]; simpl; [done|].
  destruct (Ascii.eqb c ESC); simpl; [split; [done|lia]|done].
Qed.

Lemma render_all_Forall {A : Type} (f : A -> result string) (P : string -> Prop)
    (l : list A) (ss : list string) :
  (forall x s, x ∈ l -> f x = Ok s -> P s) ->
  render_all f l = Ok ss -> Forall P ss /\ length ss = length l.
Proof.
  revert ss. induction l as [|x l IH]; intros ss Hf; simpl.
  - by intros [= <-].
  - destruct (f x) as [s|] eqn:Hx; simpl; [|done].
    destruct (render_all f l) as [ss'|] eqn:Hl; simpl; [|done]. intros [= <-].
    destruct (IH ss') as [Hall Hlen]; [|done|].
    { intros y s' Hy. apply Hf. by right. }
    split; [|by rewrite <- Hlen]. constructor; [|done]. apply (Hf x); [by left|done].
Qed.

Lemma count_byte_tab (b : ascii) : b <> TAB -> count_byte b tab = 0.
Proof.
  intros Hb. change (count_byte b tab) with ((if Ascii.eqb TAB b then 1 else 0) + 0).
  destruct (Ascii.eqb_spec TAB b) as [Heq|]; [by destruct Hb|done].
Qed.

Lemma count_byte_tabbed (b : ascii) (ss : list string) :
  b <> TAB -> Forall (fun s => count_byte b s = 0) ss -> count_byte b (tabbed ss) = 0.
Proof.
  intros Hb. induction 1 as [|s ss Hs Hall IH]; [done|].
  change (tabbed (s :: ss)) with (tab +:+ s +:+ tabbed ss).
  by rewrite !count_byte_app, Hs, IH, count_byte_tab.
Qed.

Lemma count_byte_join_tabs (b : ascii) (ss : list string) :
  b <> TAB -> Forall (fun s => count_byte b s = 0) ss -> count_byte b (join_tabs ss) = 0.
Proof.
  intros Hb Hall. destruct Hall as [|s ss Hs Hall]; [done|].
  change (join_tabs (s :: ss)) with (s +:+ tabbed ss).
  by rewrite count_byte_app, Hs, count_byte_tabbed.
Qed.

Lemma count_byte_concat_lines (b : ascii) (n : nat) (lines : list string) :
  Forall (fun l => count_byte b l = n) lines ->
  count_byte b (concat_lines lines) = n * length lines.
Proof.
  induction 1 as [|l lines Hl Hall IH]; [simpl; lia|].
  change (concat_lines (l :: lines)) with (l +:+ concat_lines lines).
  rewrite count_byte_app, Hl, IH. simpl. by rewrite Nat.mul_succ_r, Nat.add_comm.
Qed.

(** A byte other than the tab that no cell and no outcome of the table
    renders occurs in the text only as the newline that ends the header
    line and each row. *)
Lemma count_byte_table_text {I : Type} `{Renders I} (b : ascii) (env : Env)
    (p : printer.Table I) (s : string) :
  b <> TAB ->
  (forall c s, c ∈ Headers p -> Render c env = Ok s -> count_byte b s = 0) ->
  (forall row c s, row ∈ Rows p -> c ∈ Intro row -> Render c env = Ok s ->
     count_byte b s = 0) ->
  (forall row o s, row ∈ Rows p -> o ∈ Entries row -> Outcome_Render o env = Ok s ->
     count_byte b s = 0) ->
  table_text env p = Ok s ->
  count_byte b s = count_byte b newline * S (length (Rows p)).
Proof.
  intros Hb Hh Hi Ho. unfold table_text.
  destruct (render_all _ (Headers p)) as [hs|] eqn:Hhs; simpl; [|done].
  destruct (render_all _ (Rows p)) as [lines|] eqn:Hlines; simpl; [|done].
  intros [= <-].
  apply render_all_Forall with (P := fun s => count_byte b s = 0) in Hhs as [Hhs _];
    [|by intros c s' Hc; apply Hh].
  apply render_all_Forall with (P := fun l => count_byte b l = count_byte b newline)
    in Hlines as [Hlines Hlen].
  - rewrite !count_byte_app, count_byte_join_tabs by done.
    rewrite (count_byte_concat_lines b (count_byte b newline)) by done.
    rewrite Hlen, Nat.mul_succ_r. simpl. lia.
  - intros row l Hrow. unfold row_line.
    destruct (render_all _ (Intro row)) as [cells|] eqn:Hcells; simpl; [|done].
    destruct (render_all _ (Entries row)) as [outs|] eqn:Houts; simpl; [|done].
    intros [= <-].
    apply render_all_Forall with (P := fun s => count_byte b s = 0) in Hcells as [Hcells _];
      [|by intros c s' Hc; apply (Hi row)].
    apply render_all_Forall with (P := fun s => count_byte b s = 0) in Houts as [Houts _];
      [|by intros o s' Hc; apply (Ho row)].
    by rewrite !count_byte_app, count_byte_join_tabs, count_byte_tabbed.
Qed.

(** An outcome that is rendered is a declared one. *)
Lemma Outcome_Render_Ok_declared (o : Outcome) (e : Env) (s : string) :
  Outcome_Render o e = Ok s -> declared o.
Proof.
  destruct (declared_cases o) as [Hd|(H0 & H1 & H2 & H3)]; [done|].
  assert (Hn : ~ declared o) by (intros [-> | [-> | [-> | ->]]]; done).
  intros Hs. destruct e as [t f]. unfold Outcome_Render in Hs. simpl in Hs.
  destruct t, (String.eqb f "ascii-table"); unfold colored in Hs;
    rewrite ?ascii_panics, ?human_panics in Hs by done; done.
Qed.

(** The rendering of an outcome has no newline and no tab; off a terminal it
    has no ESC and no marker byte either. *)
Lemma Outcome_Render_bytes (o : Outcome) (e : Env) (s : string) :
  Outcome_Render o e = Ok s ->
  count_byte NEWLINE s = 0 /\ count_byte TAB s = 0 /\
  (IsTerminal e = false -> count_byte ESC s = 0 /\ count_byte XFF s = 0).
Proof.
  intros Hs. pose proof (Outcome_Render_Ok_declared o e s Hs) as Hd.
  destruct e as [t f]. unfold Outcome_Render in Hs. simpl in Hs.
  destruct Hd as [-> | [-> | [-> | ->]]];
    destruct t, (String.eqb f "ascii-table"); injection Hs as <-;
    (split; [by vm_compute|split; [by vm_compute|]]); simpl;
    first [done | by intros _; vm_compute].
Qed.

(** X4: The text has one newline for the header line and one for each row, when
    no header or intro cell holds a newline. *)
Theorem Table_Render_newlines {I : Type} `{Renders I} (p : printer.Table I)
    (t : bool) (f : string) (s : string) :
  let env := {| IsTerminal := t; OutputFormat := f |} in
  (forall c s, c ∈ Headers p -> Render c env = Ok s -> count_byte NEWLINE s = 0) ->
  (forall row c s, row ∈ Rows p -> c ∈ Intro row -> Render c env = Ok s ->
     count_byte NEWLINE s = 0) ->
  Table_Render p t f = Ok s ->
  count_byte NEWLINE s = S (length (Rows p)).
Proof.
  intros env Hh Hi. rewrite Table_Render_table_text. intros Hs.
  rewrite (count_byte_table_text NEWLINE env p s); try done.
  intros row o s' _ _ Ho. by apply (Outcome_Render_bytes o env s').
Qed.

(** Off a terminal, in every format, the text holds no ESC and no marker
    byte when no header or intro cell renders one. *)
Lemma Table_Render_plain_off_terminal {I : Type} `{Renders I} (p : printer.Table I)
    (f : string) (s : string) :
  let env := {| IsTerminal := false; OutputFormat := f |} in
  (forall c s, c ∈ Headers p -> Render c env = Ok s ->
     count_byte ESC s = 0 /\ count_byte XFF s = 0) ->
  (forall row c s, row ∈ Rows p -> c ∈ Intro row -> Render c env = Ok s ->
     count_byte ESC s = 0 /\ count_byte XFF s = 0) ->
  Table_Render p false f = Ok s ->
  has_escape s = false /\ count_byte XFF s = 0.
Proof.
  intros env Hh Hi. rewrite Table_Render_table_text. intros Hs.
  rewrite has_escape_count.
  rewrite (count_byte_table_text ESC env p s), (count_byte_table_text XFF env p s);
    try done.
  - intros c s' Hc Hr. by apply (Hh c s').
  - intros row c s' Hrow Hc Hr. by apply (Hi row c s').
  - intros row o s' _ _ Ho. by apply (Outcome_Render_bytes o env s').
  - intros c s' Hc Hr. by apply (Hh c s').
  - intros row c s' Hrow Hc Hr. by apply (Hi row c s').
  - intros row o s' _ _ Ho. by apply (Outcome_Render_bytes o env s').
Qed.

(** ** When rendering panics *)

(** A cell that renders in every environment. *)
Definition never_panics {I : Type} `{Renders I} (c : I) : Prop :=
  forall e, exists s, Render c e = Ok s.

Lemma render_all_Ok {A : Type} (f : A -> result string) (l : list A) :
  (forall x, x ∈ l -> exists s, f x = Ok s) -> exists ss, render_all f l = Ok ss.
Proof.
  induction l as [|x l IH]; intros Hf; simpl; [by eexists|].
  destruct (Hf x) as [s ->]; [by left|]. simpl.
  destruct IH as [ss ->]; [intros y Hy; apply Hf; by right|]. simpl. by eexists.
Qed.

Lemma render_all_Panic {A : Type} (f : A -> result string) (msg : string) (l : list A) :
  (forall x, x ∈ l -> (exists s, f x = Ok s) \/ f x = Panic msg) ->
  (exists x, x ∈ l /\ f x = Panic msg) ->
  render_all f l = Panic msg.
Proof.
  induction l as [|x l IH]; intros Hf (y & Hy & Hpanic); simpl.
  - by apply elem_of_nil in Hy.
  - destruct (Hf x) as [[s Hs]| ->]; [by left| |done]. rewrite Hs. simpl.
    rewrite IH; [done| |].
    + intros z Hz. apply Hf. by right.
    + apply elem_of_cons in Hy as [->|Hy]; [congruence|]. by exists y.
Qed.

Lemma Outcome_Render_Ok_or_Panic (o : Outcome) (e : Env) :
  (declared o /\ exists s, Outcome_Render o e = Ok s) \/
  (~ declared o /\ Outcome_Render o e = Panic "unknown access code").
Proof.
  destruct (declared_cases o) as [Hd|(H0 & H1 & H2 & H3)].
  - left. split; [done|]. destruct e as [t f]. unfold Outcome_Render. simpl.
    destruct Hd as [-> | [-> | [-> | ->]]]; destruct t, (String.eqb f "ascii-table");
      eexists; reflexivity.
  - assert (Hn : ~ declared o) by (intros [-> | [-> | [-> | ->]]]; done).
    right. split; [done|]. destruct e as [t f]. unfold Outcome_Render. simpl.
    destruct t, (String.eqb f "ascii-table"); unfold colored;
      rewrite ?ascii_panics, ?human_panics by done; done.
Qed.

Lemma row_line_Ok_or_Panic {I : Type} `{Renders I} (env : Env) (row : Row I) :
  (forall c, c ∈ Intro row -> never_panics c) ->
  ((forall o, o ∈ Entries row -> declared o) /\ exists l, row_line env row = Ok l) \/
  ((exists o, o ∈ Entries row /\ ~ declared o) /\
   row_line env row = Panic "unknown access code").
Proof.
  intros Hcells. unfold row_line.
  destruct (render_all_Ok (fun c => Render c env) (Intro row)) as [cells ->].
  { intros c Hc. apply (Hcells c Hc env). }
  simpl.
  destruct (decide (Forall (fun o => N.eqb o None_ || N.eqb o Up || N.eqb o Down
                                     || N.eqb o Err = true) (Entries row)))
    as [Hall|Hex].
  - left. rewrite Forall_forall in Hall.
    assert (Hd : forall o, o ∈ Entries row -> declared o).
    { intros o Ho. specialize (Hall o Ho).
      destruct (declared_cases o) as [|(H0 & H1 & H2 & H3)]; [done|].
      by rewrite H0, H1, H2, H3 in Hall. }
    split; [done|].
    destruct (render_all_Ok (fun o => Outcome_Render o env) (Entries row)) as [outs ->].
    { intros o Ho. by destruct (Outcome_Render_Ok_or_Panic o env) as [[_ ?]|[Hn _]];
        [|destruct (Hn (Hd o Ho))]. }
    simpl. by eexists.
  - right. apply not_Forall_Exists in Hex; [|apply _].
    apply Exists_exists in Hex as (o & Ho & Hn).
    assert (Hno : ~ declared o).
    { intros [-> | [-> | [-> | ->]]]; by destruct Hn. }
    split; [by exists o|].
    rewrite (render_all_Panic _ "unknown access code"); [done| |].
    + intros o' _. destruct (Outcome_Render_Ok_or_Panic o' env) as [[_ ?]|[_ ?]]; auto.
    + exists o. split; [done|].
      by destruct (Outcome_Render_Ok_or_Panic o env) as [[? _]|[_ ?]].
Qed.

(** With header and intro cells that never panic, [Render] returns exactly
    when every outcome of every row is one of the four declared constants;
    with one that is not, it panics with "unknown access code", in every
    environment. *)
Lemma Table_Render_Ok_or_Panic {I : Type} `{Renders I}
    (p : printer.Table I) (t : bool) (f : string) :
  (forall c, c ∈ Headers p -> never_panics c) ->
  (forall row c, row ∈ Rows p -> c ∈ Intro row -> never_panics c) ->
  ((forall row o, row ∈ Rows p -> o ∈ Entries row -> declared o) ->
     exists s, Table_Render p t f = Ok s) /\
  (forall row o, row ∈ Rows p -> o ∈ Entries row -> ~ declared o ->
     Table_Render p t f = Panic "unknown access code").
Proof.
  intros Hh Hi. rewrite Table_Render_table_text. unfold table_text.
  set (env := {| IsTerminal := t; OutputFormat := f |}).
  destruct (render_all_Ok (fun h => Render h env) (Headers p)) as [hs ->].
  { intros c Hc. apply (Hh c Hc env). }
  simpl. split.
  - intros Hd. destruct (render_all_Ok (row_line env) (Rows p)) as [lines ->].
    + intros row Hrow.
      destruct (row_line_Ok_or_Panic env row (fun c => Hi row c Hrow))
        as [[_ ?]|[(o & Ho & Hn) _]]; [done|]. destruct (Hn (Hd row o Hrow Ho)).
    + simpl. by eexists.
  - intros row o Hrow Ho Hn.
    rewrite (render_all_Panic _ "unknown access code"); [done| |].
    + intros row' Hrow'.
      destruct (row_line_Ok_or_Panic env row' (fun c => Hi row' c Hrow'))
        as [[_ ?]|[_ ?]]; auto.
    + exists row. split; [done|].
      destruct (row_line_Ok_or_Panic env row (fun c => Hi row c Hrow))
        as [[Hd _]|[_ ?]]; [|done]. destruct (Hn (Hd o Ho)).
Qed.

(** ** Tables built by [Table] can be rendered *)

Lemma outcome_of_declared (a : Access) : declared (outcome_of a).
Proof. unfold declared. destruct a; simpl; auto. Qed.

Lemma Text_never_panics (s : string) : never_panics (OfText (mkText s)).
Proof. intros e. by eexists. Qed.

Lemma BoldText_never_panics (s : string) : never_panics (BoldText s).
Proof. intros [[|] f]; by eexists. Qed.

Lemma cut_Table_grouped (Access_zero : Access) (ToUpper : string -> string)
    (ra : ResourceAccess) (verbs : list string) :
  result_cut.Table Access_zero ToUpper ra verbs =
  {| Headers := result_cut.table_headers ToUpper verbs;
     Rows := (cut_grouped Access_zero ra verbs "" (cut_sorted_names ra)).*2 |}.
Proof.
  unfold result_cut.Table, result_cut.Table_build, for_range.
  rewrite fold_left_snoc, map_id. simpl.
  destruct (cut_Table_loop_grouped Access_zero ra verbs (cut_sorted_names ra) 0
              {| result_cut.p := TableWithHeaders (result_cut.table_headers ToUpper verbs);
                 result_cut.kinds := []; result_cut.lastGroup := "" |})
    as (Hh & Hr & _).
  unfold cut_sorted_names in *.
  destruct (result_cut.p _) as [hs rows]. simpl in *. by rewrite Hh, Hr.
Qed.

(** Every outcome that [Table] puts into a row is one of the four declared
    constants, in both revisions, whatever the map holds. *)
Lemma Table_rows_declared (Access_zero : Access) (ToUpper : string -> string)
    (ra : ResourceAccess) (verbs : list string) :
  (forall row o, row ∈ Rows (Table Access_zero ToUpper ra verbs) ->
     o ∈ Entries row -> declared o) /\
  (forall row o, row ∈ Rows (result_cut.Table Access_zero ToUpper ra verbs) ->
     o ∈ Entries row -> declared o).
Proof.
  rewrite Table_grouped, cut_Table_grouped. simpl. split.
  - intros row o Hrow Ho. apply list_elem_of_fmap in Hrow as ([k r] & -> & Hin).
    simpl in Ho.
    apply elem_of_grouped in Hin as [[_ ->]|[(gr & _ & _ & ->)|(gr & _ & _ & ->)]];
      simpl in Ho.
    + apply list_elem_of_singleton in Ho as ->. by left.
    + apply list_elem_of_singleton in Ho as ->. by left.
    + apply list_elem_of_fmap in Ho as (v & -> & _). apply outcome_of_declared.
  - intros row o Hrow Ho. apply list_elem_of_fmap in Hrow as ([k r] & -> & Hin).
    simpl in Ho.
    apply cut_elem_of_grouped in Hin as [[_ ->]|[(n & _ & _ & ->)|(n & _ & _ & ->)]];
      simpl in Ho.
    + apply list_elem_of_singleton in Ho as ->. by left.
    + apply list_elem_of_singleton in Ho as ->. by left.
    + apply list_elem_of_fmap in Ho as (v & -> & _). apply outcome_of_declared.
Qed.

(** [Table(verbs).Render] never panics: the table of the revision with
    renderable cells is rendered in every environment, for every map and
    every list of verbs. *)
Lemma cut_Table_Render_Ok (Access_zero : Access) (ToUpper : string -> string)
    (ra : ResourceAccess) (verbs : list string) (t : bool) (f : string) :
  exists s, Table_Render (result_cut.Table Access_zero ToUpper ra verbs) t f = Ok s.
Proof.
  apply Table_Render_Ok_or_Panic.
  - rewrite cut_Table_grouped. simpl. rewrite table_headers_map.
    intros c [->|Hc]%elem_of_cons; [apply Text_never_panics|].
    apply list_elem_of_fmap in Hc as (s & -> & _). apply Text_never_panics.
  - rewrite cut_Table_grouped. simpl. intros row c Hrow Hc.
    apply list_elem_of_fmap in Hrow as ([k r] & -> & Hin). simpl in Hc.
    apply cut_elem_of_grouped in Hin as [[_ ->]|[(n & _ & _ & ->)|(n & _ & _ & ->)]];
      simpl in Hc; apply list_elem_of_singleton in Hc as ->;
      first [apply Text_never_panics | apply BoldText_never_panics].
  - apply Table_rows_declared.
Qed.

(** * Further properties of [Table] *)

(** ** The order of strings, once more *)

Lemma string_lt_irrefl (a : string) : ~ string_lt a a.
Proof. unfold string_lt. by rewrite string_compare_refl. Qed.

Lemma string_lt_trans (a b c : string) : string_lt a b -> string_lt b c -> string_lt a c.
Proof. apply string_compare_lt_trans. Qed.

Lemma string_le_lt_or_eq (a b : string) : string_le a b <-> string_lt a b \/ a = b.
Proof.
  unfold string_le, string_lt. split.
  - intros Hle. destruct (String.compare a b) eqn:Hc; [|by left|done].
    right. by apply String.compare_eq_iff.
  - intros [Hlt | ->]; [by rewrite Hlt|]. by rewrite string_compare_refl.
Qed.

Lemma string_le_empty (a : string) : string_le "" a.
Proof. unfold string_le. by destruct a. Qed.

Lemma pair_le_group (x y : GroupResource) : pair_le x y -> string_le (Group x) (Group y).
Proof.
  intros [Hlt | [-> _]]; apply string_le_lt_or_eq; [by left|by right].
Qed.

(** ** The headers of a list of groups *)

(** The groups at which a header is due: those that differ from the group
    before, [last]. *)
Fixpoint group_changes (last : option string) (gs : list string) : list string :=
  match gs with
  | [] => []
  | g :: rest =>
      ((if decide (last = Some g) then [] else [g]) ++ group_changes (Some g) rest)%list
  end.

(** The groups of the headers of a table, from top to bottom. *)
Definition header_groups (rows : list (RowKind * Row string)) : list string :=
  omap (fun kr => match kr.1 with GroupHeader g => Some g | _ => None end) rows.

(** In a list of groups in ascending order each group changes in at most
    once: the changes are in strictly ascending order, and they are the
    groups of the list other than [l]. *)
Lemma group_changes_sorted (l : string) (gs : list string) :
  StronglySorted string_le gs -> Forall (string_le l) gs ->
  StronglySorted string_lt (group_changes (Some l) gs) /\
  Forall (string_lt l) (group_changes (Some l) gs) /\
  (forall g, g ∈ group_changes (Some l) gs <-> g ∈ gs /\ g <> l).
Proof.
  revert l. induction gs as [|g gs IH]; intros l Hs Hl; simpl.
  - split; [constructor|]. split; [constructor|]. set_solver.
  - apply StronglySorted_cons in Hs as [Hg Hs].
    apply Forall_cons in Hl as [Hlg Hl].
    case_decide as Heq.
    + injection Heq as <-. simpl. destruct (IH l Hs Hl) as (H1 & H2 & H3).
      split; [done|]. split; [done|]. intros x. rewrite H3. set_solver.
    + simpl. assert (Hlt : string_lt l g).
      { apply string_le_lt_or_eq in Hlg as [? | ->]; [done|by destruct Heq]. }
      destruct (IH g Hs Hg) as (H1 & H2 & H3).
      split; [by constructor|]. split.
      * constructor; [done|]. eapply Forall_impl; [exact H2|].
        intros x. by apply string_lt_trans.
      * intros x. rewrite elem_of_cons, H3, elem_of_cons. split.
        -- intros [-> | [Hx Hne]].
           ++ split; [by left|]. intros ->. by apply string_lt_irrefl in Hlt.
           ++ split; [by right|]. intros ->.
              rewrite Forall_forall in Hg. specialize (Hg l Hx).
              apply string_le_lt_or_eq in Hg as [Hg | ->];
                [|by apply string_lt_irrefl in Hlt].
              by apply (string_lt_irrefl l), (string_lt_trans l g l).
        -- intros [[-> | Hx] Hne]; [by left|].
           destruct (decide (x = g)) as [->|]; [by left|by right].
Qed.

Lemma group_changes_first (gs : list string) :
  StronglySorted string_le gs ->
  StronglySorted string_lt (group_changes None gs) /\
  (forall g, g ∈ group_changes None gs <-> g ∈ gs).
Proof.
  destruct gs as [|g gs]; simpl; [split; [constructor|done]|].
  intros [Hg Hs]%StronglySorted_cons.
  destruct (group_changes_sorted g gs Hs Hg) as (H1 & H2 & H3).
  split; [by constructor|]. intros x. rewrite !elem_of_cons, H3.
  destruct (decide (x = g)); naive_solver.
Qed.

Lemma header_groups_grouped (Access_zero : Access) (ToUpper : string -> string)
    (ra : ResourceAccess) (verbs : list string)
    (prev : option GroupResource) (grs : list GroupResource) :
  header_groups (grouped Access_zero ToUpper ra verbs prev grs)
  = group_changes (Group <$> prev) (map Group grs).
Proof.
  unfold header_groups. revert prev.
  induction grs as [|gr grs IH]; intros prev; simpl; [done|].
  rewrite omap_app, IH. unfold block. f_equal.
  destruct prev as [q|]; simpl; [|done].
  destruct (decide (Group q = Group gr)) as [Heq|Hne].
  - rewrite decide_True by congruence. done.
  - rewrite decide_False by congruence. done.
Qed.

Lemma count_rows_grouped (Access_zero : Access) (ToUpper : string -> string)
    (ra : ResourceAccess) (verbs : list string)
    (prev : option GroupResource) (grs : list GroupResource) :
  let rows := grouped Access_zero ToUpper ra verbs prev grs in
  count_rows is_data rows = length grs /\
  count_rows is_header rows = length (header_groups rows) /\
  count_rows is_header rows =
    count_rows is_spacer rows + match prev, grs with None, _ :: _ => 1 | _, _ => 0 end.
Proof.
  unfold count_rows, header_groups. revert prev.
  induction grs as [|gr grs IH]; intros prev; simpl; [by destruct prev|].
  destruct (IH (Some gr)) as (Hd & Hh & Hsp). simpl in Hsp.
  rewrite !fmap_app, !List.filter_app, !length_app, omap_app, length_app, Hd, Hh.
  unfold block. destruct prev as [q|]; [case_decide|]; simpl; lia.
Qed.

Lemma sorted_resources_groups_sorted (ra : ResourceAccess) :
  StronglySorted string_le (map Group (sorted_resources ra)).
Proof.
  apply (StronglySorted_fmap Group pair_le string_le).
  - intros x y. apply pair_le_group.
  - apply sorted_resources_pair_le.
Qed.

Lemma length_sorted_resources (ra : ResourceAccess) :
  length (sorted_resources ra) = size ra.
Proof.
  rewrite (Permutation_length (sorted_resources_Permutation ra)), length_map.
  unfold names_of. by rewrite length_fmap, length_map_to_list.
Qed.

(** X8: The table has one data row for each key of the map, one group header
    for each group that a key has, in ascending order of the groups, and,
    when the map is not empty, one spacer less than headers. *)
Theorem Table_row_counts (Access_zero : Access) (ToUpper : string -> string)
    (ra : ResourceAccess) (verbs : list string) :
  let rows := Table_rows Access_zero ToUpper ra verbs in
  count_rows is_data rows = size ra /\
  count_rows is_header rows = length (header_groups rows) /\
  StronglySorted string_lt (header_groups rows) /\
  NoDup (header_groups rows) /\
  (forall g, g ∈ header_groups rows <->
     exists name, is_Some (ra !! name) /\ Group (ParseGroupResource name) = g) /\
  (ra <> ∅ -> count_rows is_header rows = S (count_rows is_spacer rows)) /\
  (ra <> ∅ -> length rows + 1 = size ra + 2 * length (header_groups rows)).
Proof.
  intros rows. subst rows. rewrite Table_rows_grouped.
  destruct (count_rows_grouped Access_zero ToUpper ra verbs None (sorted_resources ra))
    as (Hd & Hh & Hsp).
  rewrite header_groups_grouped in *. simpl in *.
  destruct (group_changes_first _ (sorted_resources_groups_sorted ra)) as [Hs Hin].
  split; [by rewrite Hd, length_sorted_resources|]. split; [done|]. split; [done|].
  split.
  { clear -Hs. induction Hs as [|g gs Hgs IH Hall]; constructor; [|done].
    intros Hg. rewrite Forall_forall in Hall. by apply (string_lt_irrefl g), Hall. }
  split.
  { intros g. rewrite Hin, list_elem_of_fmap. split.
    - intros (gr & -> & Hgr). apply elem_of_sorted_resources in Hgr as (name & ? & <-).
      by exists name.
    - intros (name & Hname & <-). exists (ParseGroupResource name). split; [done|].
      apply elem_of_sorted_resources. by exists name. }
  assert (Hne : ra <> ∅ -> sorted_resources ra <> []).
  { intros Hra Hnil. by apply Hra, sorted_resources_nil. }
  split.
  - intros Hra. destruct (sorted_resources ra); [by destruct (Hne Hra)|]. lia.
  - intros Hra. specialize (Hne Hra).
    assert (Hlen : forall l : list (RowKind * Row string),
              length l = count_rows is_data l + count_rows is_header l
                         + count_rows is_spacer l).
    { unfold count_rows. induction l as [|[[| |] r] l IHl]; csimpl; lia. }
    rewrite Hlen, Hd, <- Hh, length_sorted_resources.
    destruct (sorted_resources ra); [done|]. lia.
Qed.

(** ** Each data row under the header of its group *)

(** Reading the rows from the top, with [current] the group of the last
    header seen: every data row belongs to the current group. *)
Fixpoint under_headers (current : option string) (kinds : list RowKind) : Prop :=
  match kinds with
  | [] => True
  | Spacer :: rest => under_headers current rest
  | GroupHeader g :: rest => under_headers (Some g) rest
  | Data gr :: rest => current = Some (Group gr) /\ under_headers current rest
  end.

Lemma under_headers_grouped (Access_zero : Access) (ToUpper : string -> string)
    (ra : ResourceAccess) (verbs : list string)
    (prev : option GroupResource) (grs : list GroupResource) :
  under_headers (Group <$> prev) (grouped Access_zero ToUpper ra verbs prev grs).*1.
Proof.
  revert prev. induction grs as [|gr grs IH]; intros prev; simpl; [done|].
  rewrite fmap_app. unfold block. specialize (IH (Some gr)).
  destruct prev as [q|]; [case_decide as Heq|]; simpl; [|done|done].
  by rewrite Heq.
Qed.

(** X9: In the table every data row stands under the header of its own group:
    the last header above it is the one of its group. *)
Theorem Table_data_under_own_header (Access_zero : Access) (ToUpper : string -> string)
    (ra : ResourceAccess) (verbs : list string) :
  under_headers None (Table_rows Access_zero ToUpper ra verbs).*1.
Proof.
  rewrite Table_rows_grouped.
  apply (under_headers_grouped Access_zero ToUpper ra verbs None).
Qed.

(** * The two revisions side by side *)

Lemma Parse_cut (name : string) :
  ParseGroupResource name = {| Group := cut_group name; Resource := cut_resource name |}.
Proof.
  unfold ParseGroupResource, cut_group, cut_resource.
  destruct (Cut_dot name) as [[b a] [|]] eqn:Hcut; simpl; [done|].
  by destruct (Cut_dot_not_found name b a Hcut) as [-> ->].
Qed.

(** Both revisions sort by the same key. *)
Lemma cut_less_parse (x y : string) :
  result_cut.less x y = less (ParseGroupResource x) (ParseGroupResource y).
Proof.
  rewrite !Parse_cut. unfold result_cut.less, less, cut_group, cut_resource.
  destruct (Cut_dot x) as [[rx gx] fx], (Cut_dot y) as [[ry gy] fy]. simpl.
  by destruct (String.eqb gx gy).
Qed.

Lemma cut_less_asym (x y : string) :
  result_cut.less x y = true -> result_cut.less y x = false.
Proof. rewrite !cut_less_parse. apply less_asym. Qed.

Lemma cut_sorted_names_Permutation (ra : ResourceAccess) :
  cut_sorted_names ra ≡ₚ names_of ra.
Proof. apply sort_Slice_Permutation. Qed.

Lemma elem_of_cut_sorted_names (ra : ResourceAccess) (name : string) :
  name ∈ cut_sorted_names ra <-> is_Some (ra !! name).
Proof. by rewrite cut_sorted_names_Permutation, elem_of_names_of. Qed.

(** The sorted names of the one revision, parsed, are the sorted resources
    of the other. *)
Lemma cut_sorted_names_parsed (ra : ResourceAccess) :
  map ParseGroupResource (cut_sorted_names ra) = sorted_resources ra.
Proof.
  apply (sort_Slice_unique less less_asym).
  - apply Permutation_map, cut_sorted_names_Permutation.
  - apply (Sorted_fmap ParseGroupResource (not_after result_cut.less) (not_after less)).
    + intros x y. unfold not_after. by rewrite cut_less_parse.
    + apply Sorted_sort_Slice, cut_less_asym.
Qed.

Lemma cut_groups_parsed (names : list string) :
  map cut_group names = map Group (map ParseGroupResource names).
Proof.
  rewrite map_map. apply map_ext. intros name. by rewrite Parse_cut.
Qed.

(** ** The rows of the revision that cuts the names *)

Definition cut_header_groups (rows : list (result_cut.RowKind * Row Renderable))
    : list string :=
  omap (fun kr => match kr.1 with result_cut.GroupHeader g => Some g | _ => None end) rows.

Definition cut_data_names (rows : list (result_cut.RowKind * Row Renderable))
    : list string :=
  omap (fun kr => match kr.1 with result_cut.Data name => Some name | _ => None end) rows.

(** Reading the rows from the top, with [current] the group of the last
    header seen, or the empty group above the first header: every data row
    belongs to the current group, and every spacer stands right in front of
    a header. *)
Fixpoint cut_under_headers (current : string) (kinds : list result_cut.RowKind) : Prop :=
  match kinds with
  | [] => True
  | result_cut.Spacer :: rest =>
      match rest with
      | result_cut.GroupHeader _ :: _ => cut_under_headers current rest
      | _ => False
      end
  | result_cut.GroupHeader g :: rest => cut_under_headers g rest
  | result_cut.Data name :: rest =>
      current = cut_group name /\ cut_under_headers current rest
  end.

Lemma cut_header_groups_grouped (Access_zero : Access) (ra : ResourceAccess)
    (verbs : list string) (last : string) (names : list string) :
  cut_header_groups (cut_grouped Access_zero ra verbs last names)
  = group_changes (Some last) (map cut_group names).
Proof.
  unfold cut_header_groups. revert last.
  induction names as [|name names IH]; intros last; simpl; [done|].
  rewrite omap_app, IH. unfold cut_block. f_equal.
  destruct (decide (cut_group name = last)) as [Heq|Hne].
  - rewrite decide_True by congruence. done.
  - rewrite decide_False by congruence. done.
Qed.

Lemma cut_data_names_grouped (Access_zero : Access) (ra : ResourceAccess)
    (verbs : list string) (last : string) (names : list string) :
  cut_data_names (cut_grouped Access_zero ra verbs last names) = names.
Proof.
  unfold cut_data_names. revert last.
  induction names as [|name names IH]; intros last; simpl; [done|].
  unfold cut_block. case_decide; csimpl; by rewrite IH.
Qed.

Lemma cut_counts_grouped (Access_zero : Access) (ra : ResourceAccess)
    (verbs : list string) (last : string) (names : list string) :
  let kinds := (cut_grouped Access_zero ra verbs last names).*1 in
  let headers := cut_header_groups (cut_grouped Access_zero ra verbs last names) in
  length (List.filter cut_is_data kinds) = length names /\
  length (List.filter cut_is_header kinds) = length headers /\
  length (List.filter cut_is_spacer kinds) = length headers /\
  length kinds = length names + 2 * length headers.
Proof.
  unfold cut_header_groups. revert last.
  induction names as [|name names IH]; intros last; simpl; [done|].
  destruct (IH (cut_group name)) as (Hd & Hh & Hs & Hl).
  unfold cut_block. case_decide; csimpl; rewrite Hd, Hh, Hs, Hl; repeat split; lia.
Qed.

Lemma cut_under_headers_grouped (Access_zero : Access) (ra : ResourceAccess)
    (verbs : list string) (last : string) (names : list string) :
  cut_under_headers last (cut_grouped Access_zero ra verbs last names).*1.
Proof.
  revert last. induction names as [|name names IH]; intros last; simpl; [done|].
  unfold cut_block. case_decide as Heq; csimpl.
  - split; [done|]. rewrite <- Heq. apply IH.
  - split; [done|]. apply IH.
Qed.

(** X10: In the revision that cuts the names the table has one data row for each
    key. A spacer and a header come in pairs, one pair for each group that
    a key has other than the empty group, in ascending order of the groups;
    the resources of the empty group stand at the top without a header, and
    every other data row stands under the header of its own group. *)
Theorem cut_Table_row_counts (Access_zero : Access) (ToUpper : string -> string)
    (ra : ResourceAccess) (verbs : list string) :
  let rows := result_cut.Table_rows Access_zero ToUpper ra verbs in
  length (List.filter cut_is_data rows.*1) = size ra /\
  length (List.filter cut_is_header rows.*1) = length (cut_header_groups rows) /\
  length (List.filter cut_is_spacer rows.*1) = length (cut_header_groups rows) /\
  length rows = size ra + 2 * length (cut_header_groups rows) /\
  StronglySorted string_lt (cut_header_groups rows) /\
  (forall g, g ∈ cut_header_groups rows <->
     g <> "" /\ exists name, is_Some (ra !! name) /\ cut_group name = g) /\
  cut_under_headers "" rows.*1.
Proof.
  intros rows. subst rows. rewrite cut_Table_rows_grouped.
  destruct (cut_counts_grouped Access_zero ra verbs "" (cut_sorted_names ra))
    as (Hd & Hh & Hs & Hl).
  pose proof (cut_under_headers_grouped Access_zero ra verbs "" (cut_sorted_names ra))
    as Hu.
  rewrite length_fmap in Hl.
  assert (Hlen : length (cut_sorted_names ra) = size ra).
  { rewrite (Permutation_length (cut_sorted_names_Permutation ra)).
    unfold names_of. by rewrite length_fmap, length_map_to_list. }
  rewrite Hlen in *.
  split; [done|]. split; [done|]. split; [done|]. split; [done|].
  rewrite cut_header_groups_grouped.
  destruct (group_changes_sorted "" (map cut_group (cut_sorted_names ra)))
    as (H1 & _ & H3).
  { rewrite cut_groups_parsed, cut_sorted_names_parsed.
    apply sorted_resources_groups_sorted. }
  { apply Forall_forall. intros g _. apply string_le_empty. }
  split; [done|]. split; [|done].
  intros g. rewrite H3, list_elem_of_In, in_map_iff. split.
  - intros [(name & <- & Hin) Hne]. split; [done|]. exists name. split; [|done].
    by apply elem_of_cut_sorted_names, list_elem_of_In.
  - intros [Hne (name & Hname & <-)]. split; [|done]. exists name. split; [done|].
    by apply list_elem_of_In, elem_of_cut_sorted_names.
Qed.

(** ** The data rows of the two revisions *)

(** The data rows of a table, from top to bottom. *)
Definition data_rows (rows : list (RowKind * Row string)) : list (Row string) :=
  omap (fun kr => match kr.1 with Data _ => Some kr.2 | _ => None end) rows.

Definition cut_data_rows (rows : list (result_cut.RowKind * Row Renderable))
    : list (Row Renderable) :=
  omap (fun kr => match kr.1 with result_cut.Data _ => Some kr.2 | _ => None end) rows.

Lemma data_rows_grouped (Access_zero : Access) (ToUpper : string -> string)
    (ra : ResourceAccess) (verbs : list string)
    (prev : option GroupResource) (grs : list GroupResource) :
  data_rows (grouped Access_zero ToUpper ra verbs prev grs)
  = map (data_row Access_zero ra verbs) grs.
Proof.
  unfold data_rows. revert prev.
  induction grs as [|gr grs IH]; intros prev; simpl; [done|].
  unfold block. destruct prev as [q|]; [case_decide|]; csimpl; by rewrite IH.
Qed.

Lemma cut_data_rows_grouped (Access_zero : Access) (ra : ResourceAccess)
    (verbs : list string) (last : string) (names : list string) :
  cut_data_rows (cut_grouped Access_zero ra verbs last names)
  = map (cut_data_row Access_zero ra verbs) names.
Proof.
  unfold cut_data_rows. revert last.
  induction names as [|name names IH]; intros last; simpl; [done|].
  unfold cut_block. case_decide; csimpl; by rewrite IH.
Qed.

(** X11: The two revisions list the same resources in the same order: the data
    rows of the one are, row by row, those of the other, with the same
    resource in the intro; and where every key of the map is canonical, with
    the same outcomes. *)
Theorem revisions_agree_on_data_rows (Access_zero : Access) (ToUpper : string -> string)
    (ra : ResourceAccess) (verbs : list string) :
  let rows := data_rows (Table_rows Access_zero ToUpper ra verbs) in
  let cut_rows := cut_data_rows (result_cut.Table_rows Access_zero ToUpper ra verbs) in
  length rows = length cut_rows /\
  map (fun r => map (fun s => OfText (mkText s)) (Intro r)) rows = map Intro cut_rows /\
  ((forall name, is_Some (ra !! name) -> canonical name) ->
     map Entries rows = map Entries cut_rows).
Proof.
  intros rows cut_rows. subst rows cut_rows.
  rewrite Table_rows_grouped, cut_Table_rows_grouped, data_rows_grouped,
    cut_data_rows_grouped, <- cut_sorted_names_parsed, !map_map.
  split; [by rewrite !length_map|]. split.
  - apply map_ext. intros name. simpl. by rewrite Parse_cut.
  - intros Hcan. apply map_ext_in. intros name Hin. simpl.
    apply list_elem_of_In, elem_of_cut_sorted_names, Hcan in Hin.
    apply map_ext. intros v. unfold cell. by rewrite Hin.
Qed.

(** ** Bold headers and the terminal *)

Lemma render_all_elem {A : Type} (f : A -> result string) (l : list A)
    (ss : list string) (x : A) (s : string) :
  render_all f l = Ok ss -> x ∈ l -> f x = Ok s -> s ∈ ss.
Proof.
  revert ss. induction l as [|y l IH]; intros ss; simpl.
  - intros _ Hx. by apply elem_of_nil in Hx.
  - destruct (f y) as [sy|] eqn:Hy; simpl; [|done].
    destruct (render_all f l) as [ss'|]; simpl; [|done]. intros [= <-].
    intros [->|Hx]%elem_of_cons Hs.
    + rewrite Hy in Hs. injection Hs as ->. by left.
    + right. by apply IH.
Qed.

Lemma count_byte_tabbed_elem (b : ascii) (ss : list string) (s : string) :
  s ∈ ss -> count_byte b s <= count_byte b (tabbed ss).
Proof.
  induction ss as [|s' ss IH]; [by intros ?%elem_of_nil|].
  change (tabbed (s' :: ss)) with (tab +:+ s' +:+ tabbed ss).
  rewrite !count_byte_app. intros [->|Hs]%elem_of_cons; [lia|].
  specialize (IH Hs). lia.
Qed.

Lemma count_byte_join_tabs_elem (b : ascii) (ss : list string) (s : string) :
  s ∈ ss -> count_byte b s <= count_byte b (join_tabs ss).
Proof.
  destruct ss as [|s' ss]; [by intros ?%elem_of_nil|].
  change (join_tabs (s' :: ss)) with (s' +:+ tabbed ss).
  rewrite count_byte_app. intros [->|Hs]%elem_of_cons; [lia|].
  pose proof (count_byte_tabbed_elem b ss s Hs). lia.
Qed.

Lemma count_byte_concat_lines_elem (b : ascii) (lines : list string) (l : string) :
  l ∈ lines -> count_byte b l <= count_byte b (concat_lines lines).
Proof.
  induction lines as [|l' lines IH]; [by intros ?%elem_of_nil|].
  change (concat_lines (l' :: lines)) with (l' +:+ concat_lines lines).
  rewrite count_byte_app. intros [->|Hl]%elem_of_cons; [lia|].
  specialize (IH Hl). lia.
Qed.

(** A byte of an intro cell is a byte of the text. *)
Lemma count_byte_table_text_cell {I : Type} `{Renders I} (b : ascii) (env : Env)
    (p : printer.Table I) (text : string) (row : Row I) (c : I) (s : string) :
  table_text env p = Ok text -> row ∈ Rows p -> c ∈ Intro row -> Render c env = Ok s ->
  count_byte b s <= count_byte b text.
Proof.
  unfold table_text.
  destruct (render_all _ (Headers p)) as [hs|]; simpl; [|done].
  destruct (render_all _ (Rows p)) as [lines|] eqn:Hlines; simpl; [|done].
  intros [= <-] Hrow Hc Hs.
  destruct (row_line env row) as [l|] eqn:Hl.
  2:{ exfalso. clear -Hlines Hrow Hl. revert lines Hlines.
      induction (Rows p) as [|r rs IH]; intros lines; simpl.
      - by apply elem_of_nil in Hrow.
      - apply elem_of_cons in Hrow as [<-|Hrow]; [by rewrite Hl|].
        destruct (row_line env r); simpl; [|done].
        destruct (render_all (row_line env) rs); simpl; [|done]. intros _. by eapply IH. }
  pose proof (render_all_elem _ _ _ _ _ Hlines Hrow Hl) as Hin.
  pose proof (count_byte_concat_lines_elem b lines l Hin) as Hle.
  rewrite !count_byte_app.
  enough (count_byte b s <= count_byte b l) by lia.
  unfold row_line in Hl.
  destruct (render_all _ (Intro row)) as [cells|] eqn:Hcells; simpl in Hl; [|done].
  destruct (render_all _ (Entries row)) as [outs|]; simpl in Hl; [|done].
  injection Hl as <-. rewrite !count_byte_app.
  pose proof (render_all_elem _ _ _ _ _ Hcells Hc Hs) as Hcell.
  pose proof (count_byte_join_tabs_elem b cells s Hcell). lia.
Qed.

Lemma bold_frame_escape (inner : string) : 1 <= count_byte ESC (bold_frame inner).
Proof.
  unfold bold_frame. rewrite !count_byte_app.
  assert (count_byte ESC esc = 1) as -> by reflexivity. lia.
Qed.

(** X12: On a terminal a bold header is framed in every format, also in
    ["ascii-table"]: as soon as a key of the map has a group other than the
    empty one, the text of the table of the revision with bold headers holds
    the byte ESC. *)
Theorem cut_Table_Render_terminal_escapes (Access_zero : Access)
    (ToUpper : string -> string) (ra : ResourceAccess) (verbs : list string)
    (name : string) (f : string) :
  is_Some (ra !! name) -> cut_group name <> "" ->
  exists s, Table_Render (result_cut.Table Access_zero ToUpper ra verbs) true f = Ok s /\
            has_escape s = true.
Proof.
  intros Hname Hgroup.
  destruct (cut_Table_Render_Ok Access_zero ToUpper ra verbs true f) as [s Hs].
  exists s. split; [done|].
  destruct (has_escape s) eqn:Hesc; [done|]. exfalso.
  apply has_escape_count in Hesc.
  rewrite Table_Render_table_text in Hs.
  assert (Hrow : cut_header_row (cut_group name)
                   ∈ Rows (result_cut.Table Access_zero ToUpper ra verbs)).
  { rewrite cut_Table_grouped. simpl.
    assert (Hg : cut_group name ∈ cut_header_groups
                   (cut_grouped Access_zero ra verbs "" (cut_sorted_names ra))).
    { rewrite cut_header_groups_grouped.
      apply (group_changes_sorted "" (map cut_group (cut_sorted_names ra))).
      - rewrite cut_groups_parsed, cut_sorted_names_parsed.
        apply sorted_resources_groups_sorted.
      - apply Forall_forall. intros g _. apply string_le_empty.
      - split; [|done]. apply list_elem_of_In, in_map, list_elem_of_In.
        by apply elem_of_cut_sorted_names. }
    apply list_elem_of_omap in Hg as ([k row] & Hin & Hk). simpl in Hk.
    destruct k as [|g|]; try done. injection Hk as ->.
    apply list_elem_of_fmap. exists (result_cut.GroupHeader (cut_group name), row).
    split; [|done]. simpl.
    apply cut_elem_of_grouped in Hin as [[? _]|[(n & _ & [= Hn] & ->)|(n & _ & ? & _)]];
      try done. by rewrite Hn. }
  pose proof (count_byte_table_text_cell ESC _ _ s _
                (BoldText (cut_group name +:+ ":"))
                (bold_frame (cut_group name +:+ ":")) Hs Hrow) as Hle.
  pose proof (bold_frame_escape (cut_group name +:+ ":")).
  assert (count_byte ESC (bold_frame (cut_group name +:+ ":")) <= count_byte ESC s).
  { apply Hle; [by left|done]. }
  lia.
Qed.

(** ** Off a terminal *)

Lemma Cut_dot_count (c : ascii) (s : string) :
  count_byte c (Cut_dot s).1.1 <= count_byte c s /\
  count_byte c (Cut_dot s).1.2 <= count_byte c s.
Proof.
  induction s as [|x s IH]; simpl; [done|].
  destruct (Ascii.eqb x "."%char); simpl; [lia|].
  destruct (Cut_dot s) as [[b a] fd]. simpl in *. lia.
Qed.

(** X13: Off a terminal the text of the table of the revision with bold headers
    holds no ESC and no marker byte, in every format, when no key of the map
    and no verb in upper case holds one. *)
Theorem cut_Table_Render_off_terminal_plain (Access_zero : Access)
    (ToUpper : string -> string) (ra : ResourceAccess) (verbs : list string)
    (f : string) :
  (forall name, is_Some (ra !! name) ->
     count_byte ESC name = 0 /\ count_byte XFF name = 0) ->
  (forall v, v ∈ verbs ->
     count_byte ESC (ToUpper v) = 0 /\ count_byte XFF (ToUpper v) = 0) ->
  exists s, Table_Render (result_cut.Table Access_zero ToUpper ra verbs) false f = Ok s /\
            has_escape s = false /\ count_byte XFF s = 0.
Proof.
  intros Hnames Hverbs.
  destruct (cut_Table_Render_Ok Access_zero ToUpper ra verbs false f) as [s Hs].
  exists s. split; [done|].
  apply (Table_Render_plain_off_terminal
           (result_cut.Table Access_zero ToUpper ra verbs) f s); [| |done].
  - rewrite cut_Table_grouped. simpl. rewrite table_headers_map.
    intros c s' [->|Hc]%elem_of_cons.
    + intros [= <-]. by vm_compute.
    + apply list_elem_of_fmap in Hc as (u & -> & Hu).
      apply list_elem_of_fmap in Hu as (v & -> & Hv). intros [= <-]. by apply Hverbs.
  - rewrite cut_Table_grouped. simpl. intros row c s' Hrow Hc.
    apply list_elem_of_fmap in Hrow as ([k r] & -> & Hin). simpl in Hc.
    apply cut_elem_of_grouped in Hin
      as [[_ ->]|[(n & Hn & _ & ->)|(n & Hn & _ & ->)]];
      simpl in Hc; apply list_elem_of_singleton in Hc as ->.
    + intros [= <-]. by vm_compute.
    + apply elem_of_cut_sorted_names, Hnames in Hn as [He Hx].
      intros [= <-]. rewrite !count_byte_app.
      pose proof (Cut_dot_count ESC n) as [_ H1].
      pose proof (Cut_dot_count XFF n) as [_ H2].
      unfold cut_group. split; simpl; lia.
    + apply elem_of_cut_sorted_names, Hnames in Hn as [He Hx].
      intros [= <-].
      pose proof (Cut_dot_count ESC n) as [H1 _].
      pose proof (Cut_dot_count XFF n) as [H2 _].
      unfold cut_resource. simpl. lia.
Qed.

(** ** The marker bytes of the frames *)

(** The text outside the segments that the marker byte brackets: what a
    writer sees that skips the marked segments. *)
Fixpoint outside_markers_from (inside : bool) (s : string) : string :=
  match s with
  | EmptyString => EmptyString
  | String c s' =>
      if Ascii.eqb c XFF then outside_markers_from (negb inside) s'
      else if inside then outside_markers_from inside s'
      else String.String c (outside_markers_from inside s')
  end.

Definition outside_markers (s : string) : string := outside_markers_from false s.

Lemma outside_markers_skip (a rest : string) :
  count_byte XFF a = 0 ->
  outside_markers_from true (a +:+ rest) = outside_markers_from true rest.
Proof.
  induction a as [|c a IH]; [done|]. rewrite append_cons. simpl.
  destruct (Ascii.eqb c XFF); simpl; [lia|]. done.
Qed.

Lemma outside_markers_keep (a rest : string) :
  count_byte XFF a = 0 ->
  outside_markers_from false (a +:+ rest) = a +:+ outside_markers_from false rest.
Proof.
  induction a as [|c a IH]; [done|]. rewrite !append_cons. simpl.
  destruct (Ascii.eqb c XFF); simpl; [lia|]. intros Ha. by rewrite IH.
Qed.

Lemma outside_markers_toggle (inside : bool) (rest : string) :
  outside_markers_from inside (xff +:+ rest) = outside_markers_from (negb inside) rest.
Proof. reflexivity. Qed.

Lemma Render_Bold (r : Renderable) (e : Env) :
  Render (Bold r) e =
    (inner ← Render r e; if negb (IsTerminal e) then Ok inner else Ok (bold_frame inner)).
Proof. reflexivity. Qed.

(** X14: [colored] leaves the glyph outside the marked segments and puts only the
    escape sequences inside; [Bold] puts the label inside, between its two
    escape sequences, so that nothing of a bold cell is outside. *)
Theorem frames_and_markers :
  (forall (wrap : Outcome -> result string) (o : Outcome) (s : string),
     colored wrap o = Ok s ->
     exists glyph, wrap o = Ok glyph /\
       (count_byte XFF glyph = 0 -> outside_markers s = glyph)) /\
  (forall (r : Renderable) (f : string) (s : string),
     Render (Bold r) {| IsTerminal := true; OutputFormat := f |} = Ok s ->
     exists inner, Render r {| IsTerminal := true; OutputFormat := f |} = Ok inner /\
       (count_byte XFF inner = 0 -> outside_markers s = "")).
Proof.
  split.
  - intros wrap o s. unfold colored. destruct (wrap o) as [glyph|]; simpl; [|done].
    intros [= <-]. exists glyph. split; [done|]. intros Hg.
    unfold outside_markers, color_frame.
    rewrite outside_markers_toggle. simpl negb.
    rewrite <- !append_assoc.
    assert (Hc : count_byte XFF (((esc +:+ "[") +:+ fmt_d (color_of o)) +:+ "m") = 0).
    { unfold color_of. by repeat case_match. }
    rewrite !append_assoc.
    rewrite <- (append_assoc esc), <- (append_assoc (esc +:+ "[")),
      <- (append_assoc ((esc +:+ "[") +:+ fmt_d (color_of o))).
    rewrite outside_markers_skip by done.
    rewrite outside_markers_toggle. simpl negb.
    rewrite outside_markers_keep by done.
    rewrite outside_markers_toggle. simpl negb.
    rewrite <- (append_assoc esc).
    rewrite outside_markers_skip by done.
    change (outside_markers_from true xff) with "". by rewrite append_nil_r.
  - intros r f s. rewrite Render_Bold.
    destruct (Render r _) as [inner|]; simpl; [|done].
    intros [= <-]. exists inner. split; [done|]. intros Hi.
    unfold outside_markers, bold_frame.
    rewrite outside_markers_toggle. simpl negb.
    rewrite <- (append_assoc esc), <- (append_assoc (esc +:+ "[1m")),
      <- (append_assoc ((esc +:+ "[1m") +:+ inner)).
    rewrite outside_markers_skip; [reflexivity|].
    rewrite !count_byte_app, Hi. reflexivity.
Qed.

(** ** Text cells *)

Lemma TextList_map (strs : list string) :
  TextList strs = map (fun s => OfText (mkText s)) strs.
Proof. unfold TextList. by rewrite fold_left_snoc. Qed.

Lemma render_all_text (env : Env) (strs : list string) :
  render_all (fun c : Renderable => Render c env) (map (fun s => OfText (mkText s)) strs)
  = Ok strs.
Proof. induction strs as [|s strs IH]; simpl; [done|]. by rewrite IH. Qed.

(** X15: [TextList] makes one cell for each string, in order, and each renders
    as its string in every environment: a row whose intro is
    [TextList(strs)] is written as the strings joined by tabs, each outcome
    behind a tab, and a newline, and panics only on an outcome. *)
Theorem TextList_row_line (strs : list string) (outcomes : list Outcome) (env : Env) :
  length (TextList strs) = length strs /\
  (forall i s, strs !! i = Some s ->
     exists c, TextList strs !! i = Some c /\ forall e, Render c e = Ok s) /\
  row_line env {| Intro := TextList strs; Entries := outcomes |} =
    (outs ← render_all (fun o => Outcome_Render o env) outcomes;
     Ok (join_tabs strs +:+ tabbed outs +:+ newline)).
Proof.
  rewrite TextList_map. split; [by rewrite length_map|]. split.
  - intros i s Hs. exists (OfText (mkText s)). split; [|done].
    by rewrite list_lookup_fmap, Hs.
  - unfold row_line. simpl. by rewrite render_all_text.
Qed.

(** ** Names and resources, back and forth *)

(** A string without a dot. *)
Definition no_dot (s : string) : Prop := Cut_dot s = (s, "", false).

Lemma Cut_dot_append (r g : string) :
  no_dot r -> Cut_dot (r +:+ "." +:+ g) = (r, g, true).
Proof.
  unfold no_dot. induction r as [|c r IH]; [done|]. rewrite append_cons. simpl.
  destruct (Ascii.eqb c "."%char); [done|].
  destruct (Cut_dot r) as [[b a] fd]. intros [= -> -> ->]. by rewrite IH.
Qed.

(** X16: The string of a resource without a dot in its name is parsed back to
    the resource, and is a canonical name; a name is canonical unless its
    first dot is its last byte. *)
Theorem GroupResource_round_trips :
  (forall gr, no_dot (Resource gr) ->
     ParseGroupResource (GroupResource_String gr) = gr /\
     canonical (GroupResource_String gr)) /\
  (forall name, canonical name <-> ~ exists before, Cut_dot name = (before, "", true)) /\
  (forall name, no_dot name -> canonical name).
Proof.
  assert (Hback : forall gr, no_dot (Resource gr) ->
            ParseGroupResource (GroupResource_String gr) = gr).
  { intros [g r] Hr. simpl in Hr. unfold GroupResource_String, ParseGroupResource.
    simpl. destruct g as [|c g]; simpl.
    - by rewrite Hr.
    - by rewrite Cut_dot_append. }
  split; [|split].
  - intros gr Hr. split; [by apply Hback|]. unfold canonical. by rewrite Hback.
  - apply canonical_iff.
  - intros name Hn. apply canonical_iff. intros (b & Hb). unfold no_dot in Hn.
    by rewrite Hn in Hb.
Qed.

(** * The properties, as stated for a user of the code *)

#[global] Instance declared_dec (o : Outcome) : Decision (declared o).
Proof. unfold declared. apply _. Defined.

(** X1: What [Render] writes is the header line and then the line of each row,
    in the order of the rows: the cells of a line joined by tabs, each
    outcome behind a tab, and a newline. It panics where the first cell in
    that order panics. *)
Theorem Table_Render_is_table_text {I : Type} `{Renders I} (p : printer.Table I)
    (t : bool) (f : string) :
  let env := {| IsTerminal := t; OutputFormat := f |} in
  Table_Render p t f = table_text env p /\
  (forall row w, Render_row env row w = (l ← row_line env row; Ok (w +:+ l))) /\
  (forall hs w, Render_headers env hs w =
     (ss ← render_all (fun h => Render h env) hs; Ok (w +:+ join_tabs ss))).
Proof.
  intros env. split; [|split].
  - apply Table_Render_table_text.
  - intros row w. apply Render_row_line.
  - intros hs w. apply Render_headers_join.
Qed.

(** X3: With header and intro cells that never panic, [Render] returns exactly
    when every outcome of every row is one of the four declared constants,
    and panics with no other message than "unknown access code". *)
Theorem Table_Render_panics_on_undeclared {I : Type} `{Renders I}
    (p : printer.Table I) (t : bool) (f : string) :
  (forall c, c ∈ Headers p -> never_panics c) ->
  (forall row c, row ∈ Rows p -> c ∈ Intro row -> never_panics c) ->
  ((exists s, Table_Render p t f = Ok s) <->
   (forall row o, row ∈ Rows p -> o ∈ Entries row -> declared o)) /\
  (forall msg, Table_Render p t f = Panic msg -> msg = "unknown access code").
Proof.
  intros Hh Hi.
  destruct (Table_Render_Ok_or_Panic p t f Hh Hi) as [Hok Hpanic].
  assert (Hcases : (forall row o, row ∈ Rows p -> o ∈ Entries row -> declared o) \/
                   Table_Render p t f = Panic "unknown access code").
  { destruct (decide (Forall (fun row => Forall declared (Entries row)) (Rows p)))
      as [Hall|Hex].
    - left. intros row o Hrow Ho. rewrite Forall_forall in Hall.
      specialize (Hall row Hrow). rewrite Forall_forall in Hall. by apply Hall.
    - right. apply not_Forall_Exists in Hex; [|apply _].
      apply Exists_exists in Hex as (row & Hrow & Hrow').
      apply not_Forall_Exists in Hrow'; [|apply _].
      apply Exists_exists in Hrow' as (o & Ho & Hn). by apply (Hpanic row o). }
  split; [split|].
  - intros [s Hs]. destruct Hcases as [|Hp]; [done|]. congruence.
  - apply Hok.
  - intros msg Hmsg. destruct Hcases as [Hd|Hp]; [|congruence].
    destruct (Hok Hd) as [s Hs]. congruence.
Qed.

(** A table of one row, with the outcome [Up]. *)
Definition one_row_example : printer.Table Renderable :=
  AddRow (TableWithHeaders (TextList ["NAME"; "GET"])) (TextList ["pods"]) [Up].

(** The text of a rendering, empty for a panic. *)
Definition text_of (r : result string) : string :=
  match r with
  | Ok s => s
  | Panic _ => ""
  end.

Ltac text_cells :=
  repeat match goal with
         | H : list_elem_of _ (_ :: _) |- _ => inversion H; subst; clear H
         | H : list_elem_of _ [] |- _ => inversion H
         | H : _ ∈ _ :: _ |- _ => apply elem_of_cons in H as [-> | H]
         | H : _ ∈ [] |- _ => by apply elem_of_nil in H
         end.

(** The panics of [one_row_example] on a terminal. *)
Lemma Table_Render_panics_on_undeclared_witness :
  ((exists s, Table_Render one_row_example true "default" = Ok s) <->
   (forall row o, row ∈ Rows one_row_example -> o ∈ Entries row -> declared o)) /\
  (forall msg, Table_Render one_row_example true "default" = Panic msg ->
     msg = "unknown access code").
Proof.
  apply (Table_Render_panics_on_undeclared one_row_example true "default").
  - intros c Hc. vm_compute in Hc. text_cells; apply Text_never_panics.
  - intros row c Hrow Hc. vm_compute in Hrow. text_cells. vm_compute in Hc.
    text_cells. apply Text_never_panics.
Defined.

(** The newlines of [one_row_example]. *)
Lemma Table_Render_newlines_witness :
  count_byte NEWLINE (text_of (Table_Render one_row_example false "default"))
  = S (length (Rows one_row_example)).
Proof.
  apply (Table_Render_newlines one_row_example false "default").
  - intros c s Hc. vm_compute in Hc. text_cells; intros [= <-]; reflexivity.
  - intros row c s Hrow Hc. vm_compute in Hrow. text_cells. vm_compute in Hc.
    text_cells. intros [= <-]. reflexivity.
  - reflexivity.
Defined.

(** X5: Off a terminal, in every format, the text holds no ESC and no marker
    byte when no header or intro cell renders one. *)
Theorem Table_Render_off_terminal_plain {I : Type} `{Renders I} (p : printer.Table I)
    (f : string) (s : string) :
  let env := {| IsTerminal := false; OutputFormat := f |} in
  (forall c s, c ∈ Headers p -> Render c env = Ok s ->
     count_byte ESC s = 0 /\ count_byte XFF s = 0) ->
  (forall row c s, row ∈ Rows p -> c ∈ Intro row -> Render c env = Ok s ->
     count_byte ESC s = 0 /\ count_byte XFF s = 0) ->
  Table_Render p false f = Ok s ->
  has_escape s = false /\ count_byte ESC s = 0 /\ count_byte XFF s = 0.
Proof.
  intros env Hh Hi Hs.
  destruct (Table_Render_plain_off_terminal p f s Hh Hi Hs) as [Hesc Hxff].
  split; [done|]. split; [|done]. by apply has_escape_count.
Qed.

(** [one_row_example] off a terminal. *)
Lemma Table_Render_off_terminal_plain_witness :
  has_escape (text_of (Table_Render one_row_example false "default")) = false /\
  count_byte ESC (text_of (Table_Render one_row_example false "default")) = 0 /\
  count_byte XFF (text_of (Table_Render one_row_example false "default")) = 0.
Proof.
  apply (Table_Render_off_terminal_plain one_row_example "default").
  - intros c s Hc. vm_compute in Hc. text_cells; intros [= <-]; split; reflexivity.
  - intros row c s Hrow Hc. vm_compute in Hrow. text_cells. vm_compute in Hc.
    text_cells. intros [= <-]. split; reflexivity.
  - reflexivity.
Defined.

(** X6: Every outcome that [Table] puts into a row is one of the four declared
    constants, in both revisions, whatever the map holds: rendering a table
    that [Table] built never reaches the panic of an unknown outcome. *)
Theorem Table_outcomes_declared (Access_zero : Access) (ToUpper : string -> string)
    (ra : ResourceAccess) (verbs : list string) :
  (forall row o, row ∈ Rows (Table Access_zero ToUpper ra verbs) ->
     o ∈ Entries row -> declared o /\ forall e, exists s, Outcome_Render o e = Ok s) /\
  (forall row o, row ∈ Rows (result_cut.Table Access_zero ToUpper ra verbs) ->
     o ∈ Entries row -> declared o /\ forall e, exists s, Outcome_Render o e = Ok s).
Proof.
  destruct (Table_rows_declared Access_zero ToUpper ra verbs) as [H1 H2].
  assert (Hr : forall o, declared o -> forall e, exists s, Outcome_Render o e = Ok s).
  { intros o Hd e. by destruct (Outcome_Render_Ok_or_Panic o e) as [[_ ?]|[Hn _]]. }
  split; intros row o Hrow Ho.
  - split; [by apply (H1 row)|]. by apply Hr, (H1 row).
  - split; [by apply (H2 row)|]. by apply Hr, (H2 row).
Qed.

(** X7: [Table(verbs).Render] never panics: the table of the revision with
    renderable cells is rendered in every environment, for every map and
    every list of verbs, as the line of NAME and the verbs in upper case and
    one line for each row. *)
Theorem cut_Table_Render_never_panics (Access_zero : Access) (ToUpper : string -> string)
    (ra : ResourceAccess) (verbs : list string) (t : bool) (f : string) :
  let p := result_cut.Table Access_zero ToUpper ra verbs in
  let env := {| IsTerminal := t; OutputFormat := f |} in
  exists lines,
    render_all (row_line env) (Rows p) = Ok lines /\
    length lines = length (Rows p) /\
    Table_Render p t f =
      Ok ("NAME" +:+ tabbed (map ToUpper verbs) +:+ newline +:+ concat_lines lines).
Proof.
  intros p env. subst p.
  destruct (cut_Table_Render_Ok Access_zero ToUpper ra verbs t f) as [s Hs].
  rewrite Table_Render_table_text in *. unfold table_text in *. fold env in Hs |- *.
  rewrite cut_Table_grouped in *. simpl in *. rewrite table_headers_map in *.
  simpl in *. rewrite render_all_text in *. simpl in *.
  destruct (render_all (row_line env) _) as [lines|] eqn:Hlines; simpl in *; [|done].
  exists lines. split; [done|]. split; [|by rewrite !append_assoc].
  by apply (render_all_Forall _ (fun _ => True)) in Hlines as [_ ?].
Qed.

(** [pods_example] on a terminal, in the format ["ascii-table"]. *)
Lemma cut_Table_Render_terminal_escapes_witness :
  exists s,
    Table_Render (result_cut.Table NotApplicable ascii_ToUpper pods_example ["get"; "list"])
                 true "ascii-table" = Ok s /\
    has_escape s = true.
Proof.
  apply (cut_Table_Render_terminal_escapes NotApplicable ascii_ToUpper pods_example
           ["get"; "list"] "pods.apps" "ascii-table").
  - vm_compute. eexists. reflexivity.
  - by vm_compute.
Defined.

(** [pods_example] off a terminal. *)
Lemma cut_Table_Render_off_terminal_plain_witness :
  exists s,
    Table_Render (result_cut.Table NotApplicable ascii_ToUpper pods_example ["get"; "list"])
                 false "default" = Ok s /\
    has_escape s = false /\ count_byte XFF s = 0.
Proof.
  apply (cut_Table_Render_off_terminal_plain NotApplicable ascii_ToUpper pods_example
           ["get"; "list"] "default").
  - intros name [res Hres].
    assert (Hname : name ∈ names_of pods_example) by (apply elem_of_names_of; by exists res).
    vm_compute in Hname. text_cells; split; reflexivity.
  - intros v Hv. text_cells; split; reflexivity.
Defined.

(** ** Telling the outcomes apart *)

(** X19: In every environment two outcomes that are rendered as the same
    string are the same outcome, and [Table] turns the four values of
    [Access] into four different outcomes. *)
Theorem Outcome_Render_injective (o1 o2 : Outcome) (e : Env) (s : string) :
  Outcome_Render o1 e = Ok s -> Outcome_Render o2 e = Ok s ->
  o1 = o2 /\
  (forall a1 a2, outcome_of a1 = o1 -> outcome_of a2 = o2 -> a1 = a2).
Proof.
  intros H1 H2.
  pose proof (Outcome_Render_Ok_declared o1 e s H1) as Hd1.
  pose proof (Outcome_Render_Ok_declared o2 e s H2) as Hd2.
  assert (Heq : o1 = o2).
  { destruct e as [t f]. unfold Outcome_Render in H1, H2. simpl in H1, H2.
    destruct Hd1 as [-> | [-> | [-> | ->]]], Hd2 as [-> | [-> | [-> | ->]]];
      try reflexivity; exfalso;
      destruct t, (String.eqb f "ascii-table"); vm_compute in H1, H2; congruence. }
  split; [done|]. subst o2. intros a1 a2 <-. by destruct a1, a2.
Qed.

(** Two cells that both read "no" in the format ["ascii-table"]. *)
Lemma Outcome_Render_injective_witness :
  Down = Down /\
  (forall a1 a2, outcome_of a1 = Down -> outcome_of a2 = Down -> a1 = a2).
Proof.
  apply (Outcome_Render_injective Down Down
           {| IsTerminal := false; OutputFormat := "ascii-table" |} "no");
    reflexivity.
Defined.

(** * Where the two revisions of [Table] part *)

(** ** Where the revision that cuts the names puts its headers *)

Lemma cut_sorted_names_nil (ra : ResourceAccess) : cut_sorted_names ra = [] -> ra = ∅.
Proof.
  intros Hs. apply names_of_nil. apply Permutation_nil_r.
  rewrite <- Hs. symmetry. apply cut_sorted_names_Permutation.
Qed.

(** Every header of [cut_grouped] stands right behind a spacer, and every
    spacer right in front of a header. *)
Lemma cut_grouped_header_after_spacer (Access_zero : Access) (ra : ResourceAccess)
    (verbs : list string) (last : string) (names : list string) (i : nat) (g : string) :
  (cut_grouped Access_zero ra verbs last names).*1 !! i = Some (result_cut.GroupHeader g) ->
  exists j, i = S j /\
    (cut_grouped Access_zero ra verbs last names).*1 !! j = Some result_cut.Spacer.
Proof.
  revert last i. induction names as [|n names IH]; intros last i; simpl; [done|].
  unfold cut_block. case_decide; simpl.
  - destruct i as [|i]; simpl; [done|]. intros Hi.
    apply IH in Hi as (j & -> & Hj). by exists (S j).
  - destruct i as [|[|[|i]]]; simpl; try done.
    + intros _. by exists 0.
    + intros Hi. apply IH in Hi as (j & -> & Hj). by exists (S (S (S j))).
Qed.

Lemma cut_grouped_spacer_before_header (Access_zero : Access) (ra : ResourceAccess)
    (verbs : list string) (last : string) (names : list string) (i : nat) :
  (cut_grouped Access_zero ra verbs last names).*1 !! i = Some result_cut.Spacer ->
  exists g, (cut_grouped Access_zero ra verbs last names).*1 !! S i
            = Some (result_cut.GroupHeader g).
Proof.
  revert last i. induction names as [|n names IH]; intros last i; simpl; [done|].
  unfold cut_block. case_decide; simpl.
  - destruct i as [|i]; simpl; [done|]. apply IH.
  - destruct i as [|[|[|i]]]; simpl; try done; [by eexists|apply IH].
Qed.

(** The groups that get a header: the groups of the keys, other than the
    empty group. *)
Lemma cut_headers_of_Table (Access_zero : Access) (ra : ResourceAccess)
    (verbs : list string) (g : string) :
  (exists row, (result_cut.GroupHeader g, row)
                 ∈ cut_grouped Access_zero ra verbs "" (cut_sorted_names ra)) <->
  g <> "" /\ exists name, is_Some (ra !! name) /\ cut_group name = g.
Proof.
  destruct (group_changes_sorted "" (map cut_group (cut_sorted_names ra)))
    as (_ & _ & H3).
  { rewrite cut_groups_parsed, cut_sorted_names_parsed.
    apply sorted_resources_groups_sorted. }
  { apply Forall_forall. intros x _. apply string_le_empty. }
  rewrite <- cut_header_groups_grouped with (Access_zero := Access_zero)
    (ra := ra) (verbs := verbs) in H3.
  assert (Hin : (exists row, (result_cut.GroupHeader g, row)
                   ∈ cut_grouped Access_zero ra verbs "" (cut_sorted_names ra))
                <-> g ∈ cut_header_groups
                          (cut_grouped Access_zero ra verbs "" (cut_sorted_names ra))).
  { unfold cut_header_groups. rewrite list_elem_of_omap. split.
    - intros [row Hrow]. by exists (result_cut.GroupHeader g, row).
    - intros ([k row] & Hrow & Hk). simpl in Hk.
      destruct k as [|g'|]; try done. injection Hk as ->. by exists row. }
  rewrite Hin, H3, list_elem_of_In, in_map_iff. split.
  - intros [(name & <- & Hname) Hne]. split; [done|]. exists name. split; [|done].
    by apply elem_of_cut_sorted_names, list_elem_of_In.
  - intros [Hne (name & Hname & <-)]. split; [|done]. exists name. split; [done|].
    by apply list_elem_of_In, elem_of_cut_sorted_names.
Qed.

(** A row that is not a data row comes with a key of a group other than the
    empty one. *)
Lemma cut_spacer_or_header_has_group (Access_zero : Access) (ra : ResourceAccess)
    (verbs : list string) (k : result_cut.RowKind) (row : Row Renderable) :
  (k, row) ∈ cut_grouped Access_zero ra verbs "" (cut_sorted_names ra) ->
  cut_is_data k = false ->
  exists g row', (result_cut.GroupHeader g, row')
                   ∈ cut_grouped Access_zero ra verbs "" (cut_sorted_names ra).
Proof.
  intros Hin Hk. destruct k as [|g|name]; [|by exists g, row|done].
  apply list_elem_of_lookup in Hin as [i Hi].
  assert (Hs : (cut_grouped Access_zero ra verbs "" (cut_sorted_names ra)).*1 !! i
               = Some result_cut.Spacer).
  { by rewrite list_lookup_fmap, Hi. }
  apply cut_grouped_spacer_before_header in Hs as [g Hg].
  rewrite list_lookup_fmap in Hg.
  destruct (cut_grouped Access_zero ra verbs "" (cut_sorted_names ra) !! S i)
    as [[k' row']|] eqn:Hl; [|done].
  simpl in Hg. injection Hg as ->. exists g, row'.
  by apply list_elem_of_lookup_2 in Hl.
Qed.

(** ** The headers of the two revisions *)

(** C1: the revision that cuts the names starts with the empty string as
    the last group and has no test for the first key. Its rows are, key by
    key in sorted order, a spacer and a group header wherever the group
    differs from the group of the key before, or from the empty group at
    the first key, and the data row. So a first key of the empty group gets
    no header, and a first key of another group gets a spacer in front of
    its header: every header stands right behind a spacer, and the groups
    with a header are the groups of the keys other than the empty one. For
    the example of the specification it gives 1 header, 2 data rows and 1
    spacer, where [resource.go] gives 2 headers, 2 data rows and 1 spacer;
    for a map of the group apps alone its first row is a spacer, where the
    first row of [resource.go] is the header. *)
Theorem C1_cut_revision_first_group (Access_zero : Access) (ToUpper : string -> string)
    (ra : ResourceAccess) (verbs : list string) :
  let cut_rows := result_cut.Table_rows Access_zero ToUpper ra verbs in
  cut_rows = cut_grouped Access_zero ra verbs "" (cut_sorted_names ra) /\
  Rows (result_cut.Table Access_zero ToUpper ra verbs) = cut_rows.*2 /\
  (ra <> ∅ ->
     exists name rest, cut_sorted_names ra = name :: rest /\
       (cut_group name = "" ->
          cut_rows = (result_cut.Data name, cut_data_row Access_zero ra verbs name)
                       :: cut_grouped Access_zero ra verbs "" rest) /\
       (cut_group name <> "" ->
          cut_rows = (result_cut.Spacer, cut_spacer_row)
                       :: (result_cut.GroupHeader (cut_group name),
                           cut_header_row (cut_group name))
                       :: (result_cut.Data name, cut_data_row Access_zero ra verbs name)
                       :: cut_grouped Access_zero ra verbs (cut_group name) rest)) /\
  (forall i g, cut_rows.*1 !! i = Some (result_cut.GroupHeader g) ->
     exists j, i = S j /\ cut_rows.*1 !! j = Some result_cut.Spacer) /\
  (forall i, cut_rows.*1 !! i = Some result_cut.Spacer ->
     exists g, cut_rows.*1 !! S i = Some (result_cut.GroupHeader g)) /\
  (forall g, (exists row, (result_cut.GroupHeader g, row) ∈ cut_rows) <->
     g <> "" /\ exists name, is_Some (ra !! name) /\ cut_group name = g) /\
  (let ex := result_cut.Table_rows Access_zero ToUpper pods_example ["get"; "list"] in
   ex.*1 = [result_cut.Data "pods"; result_cut.Spacer;
            result_cut.GroupHeader "apps"; result_cut.Data "pods.apps"] /\
   length (List.filter cut_is_header ex.*1) = 1 /\
   length (List.filter cut_is_data ex.*1) = 2 /\
   length (List.filter cut_is_spacer ex.*1) = 1) /\
  (let ex := Table_rows Access_zero ToUpper pods_example ["get"; "list"] in
   ex.*1 = [GroupHeader ""; Data {| Group := ""; Resource := "pods" |}; Spacer;
            GroupHeader "apps"; Data {| Group := "apps"; Resource := "pods" |}] /\
   count_rows is_header ex = 2 /\ count_rows is_data ex = 2 /\
   count_rows is_spacer ex = 1) /\
  (let apps := {[ "pods.apps" := {[ "get" := Allowed ]} ]} in
   (result_cut.Table_rows Access_zero ToUpper apps ["get"]).*1
     = [result_cut.Spacer; result_cut.GroupHeader "apps"; result_cut.Data "pods.apps"] /\
   (Table_rows Access_zero ToUpper apps ["get"]).*1
     = [GroupHeader "apps"; Data {| Group := "apps"; Resource := "pods" |}]).
Proof.
  intros cut_rows. subst cut_rows. rewrite cut_Table_grouped, cut_Table_rows_grouped.
  split; [done|]. split; [done|].
  split; [|split; [|split; [|split; [|split; [|split]]]]].
  - intros Hne. destruct (cut_sorted_names ra) as [|name rest] eqn:Hs.
    { by apply cut_sorted_names_nil in Hs. }
    exists name, rest. split; [done|]. simpl. unfold cut_block.
    split; intros Hg; case_decide; try done. simpl. by rewrite Hg.
  - apply cut_grouped_header_after_spacer.
  - apply cut_grouped_spacer_before_header.
  - apply cut_headers_of_Table.
  - by vm_compute.
  - by vm_compute.
  - by vm_compute.
Qed.

(** ** The empty group *)

Lemma cut_less_empty_group (x y : string) :
  cut_group x = "" -> cut_group y <> "" -> result_cut.less x y = true.
Proof.
  intros Hx Hy. rewrite cut_less_parse. apply less_empty_group; by rewrite Parse_cut.
Qed.

(** C4: the revision that cuts the names sorts with the empty string itself
    as the key of the empty group, so the resources of that group come
    first, in front of every resource of another group. Its first row is
    then the data row of such a resource: the empty group never has a
    header. The label of a header is the group in bold with a colon; the
    group is never the empty one, so the label is never [":"], and none is
    put for the empty group. For the map with the one resource pods it
    gives the data row alone, where [resource.go] gives the header
    ["core:"] and the data row. *)
Theorem C4_cut_revision_no_core_header (Access_zero : Access) (ToUpper : string -> string)
    (ra : ResourceAccess) (verbs : list string) :
  let cut_rows := result_cut.Table_rows Access_zero ToUpper ra verbs in
  (forall g row, (result_cut.GroupHeader g, row) ∈ cut_rows ->
     g <> "" /\ Intro row = [BoldText (g +:+ ":")] /\ g +:+ ":" <> ":") /\
  (forall name, is_Some (ra !! name) -> cut_group name = "" ->
     exists n rest, cut_sorted_names ra = n :: rest /\ cut_group n = "" /\
       cut_rows = (result_cut.Data n, cut_data_row Access_zero ra verbs n)
                    :: cut_grouped Access_zero ra verbs "" rest) /\
  (forall x y, cut_group x = "" -> cut_group y <> "" -> result_cut.less x y = true) /\
  (forall i j x y,
     cut_data_names cut_rows !! i = Some x -> cut_data_names cut_rows !! j = Some y ->
     cut_group x = "" -> cut_group y <> "" -> i < j) /\
  (let pods := {[ "pods" := {[ "get" := Allowed ]} ]} in
   result_cut.Table_rows Access_zero ToUpper pods ["get"]
     = [ (result_cut.Data "pods",
          {| Intro := [OfText (mkText "pods")]; Entries := [Up] |}) ] /\
   Table_rows Access_zero ToUpper pods ["get"]
     = [ (GroupHeader "", {| Intro := ["core:"; ToUpper "get"]; Entries := [None_] |});
         (Data {| Group := ""; Resource := "pods" |},
          {| Intro := ["pods"]; Entries := [Up] |}) ]).
Proof.
  intros cut_rows. subst cut_rows.
  rewrite cut_Table_rows_grouped, cut_data_names_grouped.
  pose proof (cut_sorted_names_parsed ra) as Hp.
  split; [|split; [|split; [|split]]].
  - intros g row Hin.
    assert (Hg : g <> "").
    { apply (cut_headers_of_Table Access_zero ra verbs g). by exists row. }
    split; [done|].
    apply cut_elem_of_grouped in Hin
      as [[? _]|[(n & _ & [= ->] & ->)|(n & _ & ? & _)]]; try done.
    split; [done|]. destruct (cut_group n) as [|a [|b s]]; [done|cbv; discriminate..].
  - intros name Hname Hgroup.
    destruct (sorted_resources_empty_group_first ra (ParseGroupResource name))
      as (gr & rest & Hs & Hgr).
    { apply elem_of_sorted_resources. by exists name. }
    { by rewrite Parse_cut. }
    destruct (cut_sorted_names ra) as [|n ns] eqn:Hn; [by rewrite Hs in Hp|].
    exists n, ns. split; [done|]. rewrite Hs in Hp. simpl in Hp.
    injection Hp as Hn' _.
    assert (Hg : cut_group n = "").
    { rewrite <- Hgr, <- Hn'. by rewrite Parse_cut. }
    split; [done|]. simpl. unfold cut_block. case_decide; [|done].
    simpl. by rewrite Hg.
  - apply cut_less_empty_group.
  - intros i j x y Hi Hj Hx Hy.
    apply (sorted_resources_empty_group_before ra i j
             (ParseGroupResource x) (ParseGroupResource y)).
    + by rewrite <- Hp, list_lookup_fmap, Hi.
    + by rewrite <- Hp, list_lookup_fmap, Hj.
    + by rewrite Parse_cut.
    + by rewrite Parse_cut.
  - by vm_compute.
Qed.

(** ** The number of outcomes of a row *)

(** C10 (amended): in both revisions a spacer and a group header carry the
    one outcome [None], however many verbs there are, and a data row
    carries one outcome for each verb. So the rows of a table differ in
    their number of outcomes exactly when the table has a group header and
    the verbs are not exactly one. The table of [resource.go] has a group
    header exactly when the map is not empty; the table of the revision that
    cuts the names has one exactly when a key has a group other than the
    empty one. *)
Theorem C10_outcomes_per_row (Access_zero : Access) (ToUpper : string -> string)
    (ra : ResourceAccess) (verbs : list string) :
  let rows := Table_rows Access_zero ToUpper ra verbs in
  let cut_rows := result_cut.Table_rows Access_zero ToUpper ra verbs in
  ((forall k row, (k, row) ∈ rows ->
      match k with
      | Spacer | GroupHeader _ => Entries row = [None_]
      | Data _ => length (Entries row) = length verbs
      end) /\
   (ragged (Table Access_zero ToUpper ra verbs) <->
      (exists g row, (GroupHeader g, row) ∈ rows) /\ length verbs <> 1) /\
   ((exists g row, (GroupHeader g, row) ∈ rows) <-> ra <> ∅)) /\
  ((forall k row, (k, row) ∈ cut_rows ->
      match k with
      | result_cut.Spacer | result_cut.GroupHeader _ => Entries row = [None_]
      | result_cut.Data _ => length (Entries row) = length verbs
      end) /\
   (cut_ragged (result_cut.Table Access_zero ToUpper ra verbs) <->
      (exists g row, (result_cut.GroupHeader g, row) ∈ cut_rows) /\ length verbs <> 1) /\
   ((exists g row, (result_cut.GroupHeader g, row) ∈ cut_rows) <->
      exists name, is_Some (ra !! name) /\ cut_group name <> "")).
Proof.
  intros rows cut_rows. split.
  - destruct (Table_outcomes_per_row Access_zero ToUpper ra verbs) as [Hkind Hrag].
    assert (Hhead : (exists g row, (GroupHeader g, row) ∈ rows) <-> ra <> ∅).
    { subst rows. rewrite Table_rows_grouped. split.
      - intros (g & row & Hin) ->. rewrite sorted_resources_empty in Hin.
        by apply elem_of_nil in Hin.
      - intros Hne. destruct (sorted_resources ra) as [|gr rest] eqn:Hs.
        { by apply sorted_resources_nil in Hs. }
        exists (Group gr), (header_row ToUpper verbs (Group gr)). simpl. by left. }
    split; [exact Hkind|]. split; [|exact Hhead].
    rewrite Hrag. by rewrite Hhead.
  - subst cut_rows. unfold cut_ragged.
    rewrite cut_Table_grouped, cut_Table_rows_grouped. simpl.
    set (crows := cut_grouped Access_zero ra verbs "" (cut_sorted_names ra)).
    assert (Hkind : forall k row, (k, row) ∈ crows ->
              match k with
              | result_cut.Spacer | result_cut.GroupHeader _ => Entries row = [None_]
              | result_cut.Data _ => length (Entries row) = length verbs
              end).
    { intros k row Hin.
      apply cut_elem_of_grouped in Hin
        as [[-> ->]|[(n & _ & -> & ->)|(n & _ & -> & ->)]]; try done.
      simpl. by rewrite length_map. }
    split; [exact Hkind|]. split; [split|].
    + intros (r1 & r2 & H1 & H2 & Hne).
      apply list_elem_of_fmap in H1 as ([k1 row1] & -> & H1).
      apply list_elem_of_fmap in H2 as ([k2 row2] & -> & H2).
      simpl in Hne.
      pose proof (Hkind k1 row1 H1) as Hk1. pose proof (Hkind k2 row2 H2) as Hk2.
      split.
      * destruct (cut_is_data k1) eqn:Hd1.
        -- destruct (cut_is_data k2) eqn:Hd2.
           ++ destruct k1, k2; try done. by rewrite Hk1, Hk2 in Hne.
           ++ by apply (cut_spacer_or_header_has_group Access_zero ra verbs k2 row2).
        -- by apply (cut_spacer_or_header_has_group Access_zero ra verbs k1 row1).
      * intros Hlen. apply Hne.
        assert (Hone : forall k row, (k, row) ∈ crows -> length (Entries row) = 1).
        { intros k row Hin. specialize (Hkind k row Hin).
          destruct k; by rewrite Hkind. }
        by rewrite (Hone k1 row1 H1), (Hone k2 row2 H2).
    + intros [(g & row & Hin) Hlen].
      pose proof Hin as Hin'.
      apply cut_elem_of_grouped in Hin'
        as [[? _]|[(n & Hn & _ & _)|(n & _ & ? & _)]]; try done.
      exists row, (cut_data_row Access_zero ra verbs n).
      split; [|split].
      * apply list_elem_of_fmap. by exists (result_cut.GroupHeader g, row).
      * apply list_elem_of_fmap.
        exists (result_cut.Data n, cut_data_row Access_zero ra verbs n).
        split; [done|]. by apply cut_data_row_in_grouped.
      * rewrite (Hkind _ _ Hin). simpl. rewrite length_map. lia.
    + split.
      * intros (g & row & Hin).
        destruct (cut_headers_of_Table Access_zero ra verbs g) as [Hto _].
        destruct Hto as (Hne & name & Hname & <-); [by exists row|].
        by exists name.
      * intros (name & Hname & Hne).
        destruct (cut_headers_of_Table Access_zero ra verbs (cut_group name))
          as [_ Hfrom].
        destruct Hfrom as [row Hrow]; [split; [done|by exists name]|].
        by exists (cut_group name), row.
Qed.

(** ** A key with a trailing dot *)

(** C2: the key ["pods."] is parsed into the resource pods of the empty
    group, whose string is ["pods"]. The map stores [Allowed] for get on
    ["pods."] and [Denied] on ["pods"]. In [resource.go], which reads
    [ra[gr.String()]], both data rows show [Down]: the row of ["pods."]
    shows what is stored for ["pods"]. The revision that cuts the names
    reads [ra[name]], and its row of ["pods."] shows [Up]. *)
Theorem C2_trailing_dot_key_shows_other_entries
    (Access_zero : Access) (ToUpper : string -> string) :
  trailing_dot_example !! "pods." = Some {[ "get" := Allowed ]} /\
  stored {[ "get" := Allowed ]} "get" = Up /\
  ParseGroupResource "pods." = {| Group := ""; Resource := "pods" |} /\
  GroupResource_String (ParseGroupResource "pods.") = "pods" /\
  Table_rows Access_zero ToUpper trailing_dot_example ["get"] =
    [ (GroupHeader "", {| Intro := ["core:"; ToUpper "get"]; Entries := [None_] |});
      (Data {| Group := ""; Resource := "pods" |},
       {| Intro := ["pods"]; Entries := [Down] |});
      (Data {| Group := ""; Resource := "pods" |},
       {| Intro := ["pods"]; Entries := [Down] |}) ] /\
  ~ cells_are_stored Access_zero ToUpper trailing_dot_example ["get"] /\
  (result_cut.Data "pods.", {| Intro := [OfText (mkText "pods")]; Entries := [Up] |})
    ∈ result_cut.Table_rows Access_zero ToUpper trailing_dot_example ["get"] /\
  (forall row,
     (result_cut.Data "pods.", row)
       ∈ result_cut.Table_rows Access_zero ToUpper trailing_dot_example ["get"] ->
     Entries row = [Up]).
Proof.
  split; [by vm_compute|]. split; [by vm_compute|]. split; [by vm_compute|].
  split; [by vm_compute|]. split; [apply trailing_dot_rows|].
  split; [apply trailing_dot_cells_not_stored|].
  rewrite cut_Table_rows_grouped. split.
  - replace {| Intro := [OfText (mkText "pods")]; Entries := [Up] |}
      with (cut_data_row Access_zero trailing_dot_example ["get"] "pods.")
      by (by vm_compute).
    apply cut_data_row_in_grouped, elem_of_cut_sorted_names.
    vm_compute. eexists. reflexivity.
  - intros row Hin.
    apply cut_elem_of_grouped in Hin
      as [[? _]|[(n & _ & ? & _)|(n & _ & [= <-] & ->)]]; try done.
Qed.

(** X21: in [resource.go], when every key of the map is the string of its own
    parsed form and the zero value of [Access] is turned into [None], the
    data row of each key has one cell for each verb, the stored outcome of
    that key and verb, [None] for a verb without entry. *)
Theorem Table_cells_are_stored (Access_zero : Access) (ToUpper : string -> string)
    (ra : ResourceAccess) (verbs : list string) :
  (forall name, is_Some (ra !! name) -> canonical name) ->
  outcome_of Access_zero = None_ ->
  cells_are_stored Access_zero ToUpper ra verbs.
Proof.
  intros Hcan Hzero name res row Hres Hin.
  rewrite Table_rows_grouped in Hin.
  apply elem_of_grouped in Hin as [[? _]|[(g & _ & ? & _)|(g & _ & [= <-] & ->)]];
    try done.
  simpl. rewrite length_map. split; [done|].
  intros i v Hv. rewrite list_lookup_fmap, Hv. simpl.
  unfold cell, index, index_ra. rewrite (Hcan name) by (by exists res).
  rewrite Hres. simpl. unfold stored. destruct (res !! v); simpl; by rewrite ?Hzero.
Qed.

(** [pods_example], whose keys are canonical, with [NotApplicable] as the
    zero value. *)
Lemma Table_cells_are_stored_witness :
  cells_are_stored NotApplicable ascii_ToUpper pods_example ["get"; "list"].
Proof.
  apply (Table_cells_are_stored NotApplicable ascii_ToUpper pods_example ["get"; "list"]).
  - intros name [res Hres].
    destruct (decide (name = "pods")) as [->|H1]; [reflexivity|].
    destruct (decide (name = "pods.apps")) as [->|H2]; [reflexivity|].
    unfold pods_example in Hres.
    rewrite lookup_insert_ne in Hres by done.
    by rewrite lookup_singleton_ne in Hres.
  - reflexivity.
Defined.
